(** * Verification of the two scripts of data-and-the-world

    - [Post013 - Array to LaTeX Matrix/python numpy array to latex.py]:
      [array_to_LaTeX], which prints a NumPy array as a LaTeX [bmatrix];
    - [Post017 - Hotellings T2 Example/hotelling.py]: [TwoSampleT2Test],
      Hotelling's two-sample T-squared test.

    How the Python is read:
    - an exception is an explicit outcome ([Raise]), threaded through the
      statements in the order Python evaluates them;
    - a NumPy array carries its number of dimensions ([Arr0], [Arr1],
      [Arr2]), because [np.cov], [np.linalg.inv], [np.matmul] and
      broadcasting behave differently on 0-d, 1-d and 2-d arrays;
    - a [float64] is an exact rational: rounding is not modelled, and a
      run in which NumPy would produce [inf] or [nan] ends in the outcome
      [NonFinite];
    - [np.linalg.inv] is Gauss-Jordan elimination, proved below to return
      the two-sided inverse exactly when there is one;
    - [scipy.stats.f(...).cdf] is a parameter of the test. *)

From Stdlib Require Import ZArith Lia Bool Ascii String List.
From Stdlib Require Import QArith Qcanon Field Permutation.
Import ListNotations.

Set Implicit Arguments.

(** ** Python outcomes *)

(** Why [numpy.linalg.inv] raised [LinAlgError]. *)
Inductive linalg_reason : Type :=
| SingularMatrix        (* "Singular matrix" *)
| NotSquare             (* "Last 2 dimensions of the array must be
                           square" *)
| NotTwoDimensional.    (* "0-dimensional array given. Array must be at
                           least two-dimensional" *)

(** The exceptions the two scripts can raise. *)
Inductive exn : Type :=
| IndexError                       (* indexing with too many indices *)
| ValueError                       (* shape mismatch, tuple unpacking *)
| LinAlgError (r : linalg_reason)
| ZeroDivisionError.               (* [/] on two Python integers *)

(** Result of running a piece of Python.  [NonFinite] is the run in which
    a floating-point division by zero happened: NumPy warns, puts [inf] or
    [nan] in the array and goes on; the exact arithmetic below has no such
    values, so the run is not followed further. *)
Inductive outcome (A : Type) : Type :=
| Ret (a : A)
| Raise (e : exn)
| NonFinite.

Arguments Raise {A} e.
Arguments NonFinite {A}.

Definition bind {A B : Type} (m : outcome A) (k : A -> outcome B) : outcome B :=
  match m with
  | Ret a => k a
  | Raise e => Raise e
  | NonFinite => NonFinite
  end.

Declare Scope py_scope.
Delimit Scope py_scope with py.
Notation "x <- m ;; k" := (bind m (fun x => k))
  (at level 61, m at next level, right associativity) : py_scope.
Notation "' p <- m ;; k" := (bind m (fun x => match x with p => k end))
  (at level 61, p pattern, m at next level, right associativity) : py_scope.

(** [[f x for x in l]], where [f] may raise. *)
Fixpoint mapM {A B : Type} (f : A -> outcome B) (l : list A) : outcome (list B) :=
  match l with
  | [] => Ret []
  | x :: l' => (y <- f x ;; ys <- mapM f l' ;; Ret (y :: ys))%py
  end.

(** ** NumPy arrays of dimension at most two *)

Inductive ndarray (A : Type) : Type :=
| Arr0 (x : A)                                 (* shape () *)
| Arr1 (data : list A)                         (* shape (n,) *)
| Arr2 (ncols : nat) (rows : list (list A)).   (* shape (n, ncols) *)

Arguments Arr1 {A} data.

(** A 2-d array is rectangular: every row has [ncols] entries. *)
Definition wf2 {A : Type} (ncols : nat) (rows : list (list A)) : Prop :=
  Forall (fun r => length r = ncols) rows.

(** [arr.shape[0]]: a 0-d array has the empty shape tuple. *)
Definition shape0 {A : Type} (a : ndarray A) : outcome nat :=
  match a with
  | Arr0 _ => Raise IndexError
  | Arr1 d => Ret (length d)
  | Arr2 _ rows => Ret (length rows)
  end.

(** [arr[i,:].tolist()] for [i] in range: two indices need two dimensions. *)
Definition row_tolist {A : Type} (a : ndarray A) (i : nat) : outcome (list A) :=
  match a with
  | Arr2 _ rows =>
      match nth_error rows i with
      | Some r => Ret r
      | None => Raise IndexError
      end
  | _ => Raise IndexError
  end.

Definition astype {A B : Type} (f : A -> B) (a : ndarray A) : ndarray B :=
  match a with
  | Arr0 x => Arr0 (f x)
  | Arr1 d => Arr1 (map f d)
  | Arr2 c rows => Arr2 c (map (map f) rows)
  end.

(** ** Post013: [array_to_LaTeX] *)

Module LatexMatrix.

Open Scope string_scope.

(** [sep.join(l)] *)
Fixpoint join (sep : string) (l : list string) : string :=
  match l with
  | [] => ""
  | [s] => s
  | s :: l' => s ++ sep ++ join sep l'
  end.

Definition digit_char (d : Z) : ascii := ascii_of_nat (48 + Z.to_nat d).

(** Decimal digits of a positive number, most significant first. *)
Fixpoint digits (fuel : nat) (n : Z) (acc : string) : string :=
  match fuel with
  | O => acc
  | S f =>
      let acc' := String (digit_char (n mod 10)) acc in
      if (n / 10 =? 0)%Z then acc' else digits f (n / 10) acc'
  end.

(** [str(z)] of an integer, which is what [astype("str")] stores for an
    integer array. *)
Definition str (z : Z) : string :=
  if (z <? 0)%Z
  then String "-" (digits (S (Z.to_nat (Z.log2 (- z)))) (- z) "")
  else digits (S (Z.to_nat (Z.log2 z))) z "".

Definition row_sep : string := " & ".
(** The Python literal [" \\\\ "]: space, two backslashes, space. *)
Definition line_sep : string := " \\ ".
Definition header : string := "\begin{bmatrix} ".
Definition footer : string := " \end{bmatrix}".

(** The function works for any element type with a textual form
    ([astype("str")]); [to_str] is that conversion. *)
Definition array_to_LaTeX {A : Type} (to_str : A -> string) (arr : ndarray A)
  : outcome string :=
  (let arr := astype to_str arr in
   nrow <- shape0 arr ;;
   rows <- mapM (fun i => l <- row_tolist arr i ;; Ret (join row_sep l))
                (seq 0 nrow) ;;
   Ret (header ++ join line_sep rows ++ footer))%py.

(** The demonstration array of the script. *)
Definition A : ndarray Z := Arr2 3 [[3; 4; 5]; [6; 7; 9]; [4; 5; 122]]%Z.

(** Number of positions of [s] at which [pat] starts. *)
Fixpoint count (pat s : string) : nat :=
  match s with
  | EmptyString => if prefix pat "" then 1 else 0
  | String _ s' => (if prefix pat s then 1 else 0) + count pat s'
  end.

(** [c] does not occur in [s]. *)
Fixpoint lacks (c : ascii) (s : string) : bool :=
  match s with
  | EmptyString => true
  | String d s' => negb (Ascii.eqb c d) && lacks c s'
  end.

(** The text the script builds for one row of the matrix. *)
Definition row_segment {A : Type} (to_str : A -> string) (r : list A) : string :=
  join row_sep (map to_str r).

(** A separator character: none of them is a digit or the minus sign. *)
Definition sep_char (k : ascii) : Prop :=
  k = " "%char \/ k = "&"%char \/ k = "\"%char.

(** What follows a chunk of text: nothing, or something that starts with
    a space (a separator or the footer). *)
Definition starts_blank (t : string) : Prop :=
  t = EmptyString \/ exists t', t = String " " t'.

(** The textual form of an element holds no separator character. *)
Definition plain {A : Type} (to_str : A -> string) : Prop :=
  forall (x : A) (k : ascii), sep_char k -> lacks k (to_str x) = true.





End LatexMatrix.

(** ** NumPy on exact numbers

    A [float64] is idealised as a rational ([Qc]): no rounding, and no
    [inf] or [nan] (see [NonFinite]).  The functions follow NumPy's own
    Python sources ([numpy/lib/_function_base_impl.py],
    [numpy/linalg/_linalg.py]); [linalg_inv], which NumPy delegates to
    LAPACK, is Gauss-Jordan elimination. *)

Module Numpy.

Open Scope Qc_scope.

Abbreviation vec := (list Qc) (only parsing).
Abbreviation mat := (list (list Qc)) (only parsing).

Definition QcZ (z : Z) : Qc := Q2Qc (inject_Z z).

(** [x / d] for a float [x] and an integer [d]. *)
Definition fdiv (x : Qc) (d : Z) : outcome Qc :=
  if (d =? 0)%Z then NonFinite else Ret (x / QcZ d).

Definition vsum (v : vec) : Qc := fold_right Qcplus 0 v.
Definition vadd (u v : vec) : vec := map (fun p => fst p + snd p) (combine u v).
Definition vsub (u v : vec) : vec := map (fun p => fst p - snd p) (combine u v).
Definition vscale (c : Qc) (v : vec) : vec := map (Qcmult c) v.
Definition dot (u v : vec) : Qc := vsum (map (fun p => fst p * snd p) (combine u v)).

Definition column (j : nat) (rows : mat) : vec := map (fun r => nth j r 0) rows.
(** [X.T] of an array of shape [(n, c)]: its [c] columns. *)
Definition columns (c : nat) (rows : mat) : mat :=
  map (fun j => column j rows) (seq 0 c).

Definition zeros (n : nat) : vec := repeat 0 n.
(** The [i]-th unit vector of length [n]. *)
Fixpoint unit_vec (n i : nat) : vec :=
  match n with
  | O => []
  | S n' => match i with
            | O => 1 :: zeros n'
            | S i' => 0 :: unit_vec n' i'
            end
  end.
Definition identity (n : nat) : mat := map (unit_vec n) (seq 0 n).

(** Row vector times matrix: the combination of the rows of [a] with the
    coefficients [v]; [w] is the width of [a]. *)
Fixpoint vecmat (w : nat) (v : vec) (a : mat) : vec :=
  match v, a with
  | x :: v', r :: a' => vadd (vscale x r) (vecmat w v' a')
  | _, _ => zeros w
  end.

Definition matmul2 (w : nat) (a b : mat) : mat := map (fun r => vecmat w r b) a.

(** *** Shapes and broadcasting *)

Definition ndim {A : Type} (a : ndarray A) : nat :=
  match a with Arr0 _ => 0 | Arr1 _ => 1 | Arr2 _ _ => 2 end.

(** The array seen with two axes, as broadcasting does: shape, then rows. *)
Definition view2 {A : Type} (a : ndarray A) : nat * nat * list (list A) :=
  match a with
  | Arr0 x => (1, 1, [[x]])
  | Arr1 d => (1, length d, [d])
  | Arr2 c rows => (length rows, c, rows)
  end%nat.

(** Length of a broadcast axis, or mismatch. *)
Definition bc_len (n m : nat) : option nat :=
  if Nat.eqb n m then Some n
  else if Nat.eqb n 1 then Some m
  else if Nat.eqb m 1 then Some n
  else None.

(** Stretch an axis of length one to length [k]. *)
Definition stretch {A : Type} (k : nat) (l : list A) : list A :=
  match l with
  | [x] => repeat x k
  | _ => l
  end.

(** A result with two axes, given back with [d] of them. *)
Definition unview {A : Type} (d c : nat) (rows : list (list A)) (dflt : A) : ndarray A :=
  match d with
  | O => Arr0 (hd dflt (hd [] rows))
  | S O => Arr1 (hd [] rows)
  | _ => Arr2 c rows
  end.

(** An element-wise binary operation on two arrays. *)
Definition binop (f : Qc -> Qc -> Qc) (a b : ndarray Qc) : outcome (ndarray Qc) :=
  let '(n1, c1, r1) := view2 a in
  let '(n2, c2, r2) := view2 b in
  match bc_len n1 n2, bc_len c1 c2 with
  | Some n, Some c =>
      let rows :=
        map (fun p => map (fun q => f (fst q) (snd q))
                          (combine (stretch c (fst p)) (stretch c (snd p))))
            (combine (stretch n r1) (stretch n r2)) in
      Ret (unview (Nat.max (ndim a) (ndim b)) c rows 0)
  | _, _ => Raise ValueError
  end.

(** Apply a fallible function to every element. *)
Definition mapM_array {A B : Type} (f : A -> outcome B) (a : ndarray A)
  : outcome (ndarray B) :=
  match a with
  | Arr0 x => (y <- f x ;; Ret (Arr0 y))
  | Arr1 d => (d' <- mapM f d ;; Ret (Arr1 d'))
  | Arr2 c rows => (rows' <- mapM (mapM f) rows ;; Ret (Arr2 c rows'))
  end%py.

(** [k * a] for a Python number [k]. *)
Definition scale (k : Qc) (a : ndarray Qc) : ndarray Qc := astype (Qcmult k) a.
(** [a / d] for a Python integer [d]. *)
Definition div_int (a : ndarray Qc) (d : Z) : outcome (ndarray Qc) :=
  mapM_array (fun x => fdiv x d) a.

(** [a.transpose()]: the axes reversed. *)
Definition transpose (a : ndarray Qc) : ndarray Qc :=
  match a with
  | Arr2 c rows => Arr2 (length rows) (columns c rows)
  | _ => a
  end.

(** *** [np.mean(X, axis=0)] on a 2-d array *)
Definition mean_axis0 (c : nat) (rows : mat) : outcome (ndarray Qc) :=
  (m <- mapM (fun col => fdiv (vsum col) (Z.of_nat (length rows))) (columns c rows) ;;
   Ret (Arr1 m))%py.

(** [c.squeeze()] of a square array: the axes of length one go. *)
Definition squeeze (p : nat) (c : mat) : ndarray Qc :=
  match c with
  | [[x]] => Arr0 x
  | _ => Arr2 p c
  end.

(** *** [np.cov(X, rowvar=False)] on a 2-d array

    - [X = X.T]: one row per variable (NumPy 1 leaves an input of one
      row as it is; the two agree from two rows on);
    - no variable: the empty [(0, 0)] array;
    - [avg = average(X, axis=1)], [fact = X.shape[1] - ddof] with
      [ddof = 1], and [fact = 0.0] when that is not positive;
    - [X -= avg[:, None]], [c = dot(X, X.T)], [c *= true_divide(1, fact)];
    - [c.squeeze()]. *)
Definition cov (p : nat) (rows : mat) : outcome (ndarray Qc) :=
  let X := columns p rows in
  match X with
  | [] => Ret (Arr2 0 [])
  | _ =>
      (let n := Z.of_nat (length rows) in
       avg <- mapM (fun v => fdiv (vsum v) n) X ;;
       let fact := if (n - 1 <=? 0)%Z then 0%Z else (n - 1)%Z in
       let X := map (fun va => map (fun x => x - snd va) (fst va)) (combine X avg) in
       let c := map (fun u => map (fun v => dot u v) X) X in
       k <- fdiv 1 fact ;;
       Ret (squeeze p (map (map (fun x => x * k)) c)))%py
  end.

(** The values [np.mean] and [np.cov] compute when no division by zero
    happens. *)
Definition mean_vec (c : nat) (rows : mat) : vec :=
  map (fun col => vsum col / QcZ (Z.of_nat (length rows))) (columns c rows).

Definition cov_mat (c : nat) (rows : mat) : mat :=
  let X := map (fun va => map (fun x => x - snd va) (fst va))
               (combine (columns c rows) (mean_vec c rows)) in
  map (map (fun x => x * (1 / QcZ (Z.of_nat (length rows) - 1))))
      (map (fun u => map (fun v => dot u v) X) X).

(** Integer data as an array of floats. *)
Definition of_ints (l : list (list Z)) : mat := map (map QcZ) l.

(** *** [np.linalg.inv] *)

(** A row of the augmented matrix: what is left of the row of the matrix
    being reduced (the columns already cleared are dropped), and the row
    of the matrix that becomes the inverse. *)
Abbreviation arow := (list Qc * list Qc)%type (only parsing).

Definition lead (r : arow) : Qc := hd 0 (fst r).

(** The first row with a nonzero leading entry, and the other rows. *)
Fixpoint find_pivot (todo : list arow) : option (arow * list arow) :=
  match todo with
  | [] => None
  | r :: rest =>
      if Qc_eq_bool (lead r) 0
      then match find_pivot rest with
           | Some (pv, others) => Some (pv, r :: others)
           | None => None
           end
      else Some (r, rest)
  end.

(** Divide the pivot row by its leading entry, which is then dropped. *)
Definition normalize (r : arow) : arow :=
  (vscale (/ lead r) (tl (fst r)), vscale (/ lead r) (snd r)).

(** Clear the leading entry of [r] with the normalized pivot row [pv]. *)
Definition eliminate (pv r : arow) : arow :=
  (vsub (tl (fst r)) (vscale (lead r) (fst pv)),
   vsub (snd r) (vscale (lead r) (snd pv))).

Fixpoint gauss_jordan (fuel : nat) (done todo : list arow) : option mat :=
  match fuel with
  | O => match todo with
         | [] => Some (map snd done)
         | _ => None
         end
  | S f =>
      match find_pivot todo with
      | None => None
      | Some (pv, rest) =>
          let pv' := normalize pv in
          gauss_jordan f (map (eliminate pv') done ++ [pv'])
                         (map (eliminate pv') rest)
      end
  end.

(** The inverse of a [p] by [p] matrix, if it has one. *)
Definition inverse (p : nat) (a : mat) : option mat :=
  gauss_jordan p [] (combine a (identity p)).

Definition linalg_inv (a : ndarray Qc) : outcome (ndarray Qc) :=
  match a with
  | Arr2 c rows =>
      if Nat.eqb (length rows) c
      then match inverse c rows with
           | Some b => Ret (Arr2 c b)
           | None => Raise (LinAlgError SingularMatrix)
           end
      else Raise (LinAlgError NotSquare)
  | _ => Raise (LinAlgError NotTwoDimensional)
  end.

(** [b] is the inverse of the [p] by [p] matrix [a], on both sides. *)
Definition is_inverse (p : nat) (a b : mat) : Prop :=
  length b = p /\ wf2 p b
  /\ matmul2 p b a = identity p /\ matmul2 p a b = identity p.

(** The rows [N] tell matrices of [p] rows apart: two such matrices on
    which every row of [N] gives the same combination are equal. *)
Definition spans (p : nat) (N : list vec) : Prop :=
  forall (w : nat) (D1 D2 : mat),
    wf2 w D1 -> wf2 w D2 -> length D1 = p -> length D2 = p ->
    (forall n, In n N -> vecmat w n D1 = vecmat w n D2) -> D1 = D2.

(** A row of the elimination of [a]: its right half applied to [a] is its
    left half, with the cleared columns [pre] put back. *)
Definition row_ok (p : nat) (a : mat) (pre : vec) (r : arow) : Prop :=
  (length pre + length (fst r) = p)%nat
  /\ length (snd r) = p
  /\ vecmat p (snd r) a = pre ++ fst r.

(** The state of the elimination of [a] after [length done] columns. *)
Definition gj_inv (p : nat) (a : mat) (done todo : list arow) : Prop :=
  (length done + length todo = p)%nat
  /\ Forall2 (row_ok p a) (identity (length done)) done
  /\ Forall (row_ok p a (zeros (length done))) todo
  /\ spans p (map snd (done ++ todo)).

(** The [p] by [p] matrix [a] sends no vector but zero to zero. *)
Definition injective_on_vectors (p : nat) (a : mat) : Prop :=
  forall x : vec, length x = p -> Forall (fun r => dot r x = 0) a -> x = zeros p.

(** *** [np.matmul] *)
Definition matmul (a b : ndarray Qc) : outcome (ndarray Qc) :=
  match a, b with
  | Arr1 u, Arr1 v =>
      if Nat.eqb (length u) (length v) then Ret (Arr0 (dot u v))
      else Raise ValueError
  | Arr1 u, Arr2 c rows =>
      if Nat.eqb (length u) (length rows) then Ret (Arr1 (vecmat c u rows))
      else Raise ValueError
  | Arr2 c rows, Arr1 v =>
      if Nat.eqb c (length v) then Ret (Arr1 (map (fun r => dot r v) rows))
      else Raise ValueError
  | Arr2 c rows, Arr2 c' rows' =>
      if Nat.eqb c (length rows') then Ret (Arr2 c' (matmul2 c' rows rows'))
      else Raise ValueError
  | _, _ => Raise ValueError
  end.

End Numpy.

(** ** Post017: [TwoSampleT2Test] *)

Module Hotelling.

Import Numpy.
Open Scope Qc_scope.

(** What the function prints (statistic, the two degrees of freedom,
    p-value) and what it returns. *)
Record result : Type := {
  printed : ndarray Qc * (Z * Z) * ndarray Qc;
  returned : ndarray Qc * ndarray Qc
}.

(** [nx, p = X.shape]: the shape must have exactly two entries. *)
Definition shape2 (a : ndarray Qc) : outcome (Z * Z) :=
  match a with
  | Arr2 c rows => Ret (Z.of_nat (length rows), Z.of_nat c)
  | _ => Raise ValueError
  end.

(** [np.mean(X, axis=0)] and [np.cov(X, rowvar=False)] after the shape
    has been unpacked. *)
Definition np_mean (a : ndarray Qc) : outcome (ndarray Qc) :=
  match a with
  | Arr2 c rows => mean_axis0 c rows
  | _ => Raise ValueError
  end.

Definition np_cov (a : ndarray Qc) : outcome (ndarray Qc) :=
  match a with
  | Arr2 c rows => cov c rows
  | _ => Raise ValueError
  end.

(** [x / y] on two Python integers. *)
Definition int_div (x y : Z) : outcome Qc :=
  if (y =? 0)%Z then Raise ZeroDivisionError else Ret (QcZ x / QcZ y).

(** The three divisors of the function body. *)
Definition pool_divisor (nx ny : Z) : Z := nx + ny - 2.
Definition t2_divisor (nx ny : Z) : Z := nx + ny.
Definition F_divisor (nx ny p : Z) : Z := p * (nx + ny - 2).


(** [((nx-1)*Sx + (ny-1)*Sy)/(nx+ny-2)] on two arrays of one shape. *)
Definition pooled_mat (nx ny : Z) (Sx Sy : mat) : mat :=
  map (map (fun x => x / QcZ (pool_divisor nx ny)))
      (map (fun p => vadd (fst p) (snd p))
           (combine (map (map (Qcmult (QcZ (nx - 1)))) Sx)
                    (map (map (Qcmult (QcZ (ny - 1)))) Sy))).

(** The statistic for the difference [d] of the means and the inverse
    [B] of the pooled covariance. *)
Definition t2_statistic (nx ny : Z) (p : nat) (d : vec) (B : mat) : Qc :=
  QcZ (nx + ny - Z.of_nat p - 1)
  * (QcZ (nx * ny) / QcZ (t2_divisor nx ny) * dot (vecmat p d B) d)
  / QcZ (F_divisor nx ny (Z.of_nat p)).

(** The result for the statistic [s] with [p] features. *)
Definition result_of (F_cdf : Z -> Z -> Qc -> Qc) (nx ny : Z) (p : nat) (s : Qc)
  : result :=
  let df2 := (nx + ny - Z.of_nat p - 1)%Z in
  let pv := 1 - F_cdf (Z.of_nat p) df2 s in
  {| printed := (Arr0 s, (Z.of_nat p, df2), Arr0 pv);
     returned := (Arr0 s, Arr0 pv) |}.


(** Lines 6 to 11 of the function: the shapes, the difference of the
    mean vectors and the pooled covariance. *)
Definition pooling (X Y : ndarray Qc)
  : outcome (Z * Z * Z * ndarray Qc * ndarray Qc) :=
  ('(nx, p) <- shape2 X ;;
   '(ny, _) <- shape2 Y ;;
   mx <- np_mean X ;;
   my <- np_mean Y ;;
   delta <- binop Qcminus mx my ;;
   Sx <- np_cov X ;;
   Sy <- np_cov Y ;;
   S <- binop Qcplus (scale (QcZ (nx - 1)) Sx) (scale (QcZ (ny - 1)) Sy) ;;
   S_pooled <- div_int S (pool_divisor nx ny) ;;
   Ret (nx, ny, p, delta, S_pooled))%py.

(** [S_pooled] of line 11 alone. *)
Definition pooled_covariance (X Y : ndarray Qc) : outcome (ndarray Qc) :=
  ('(_, _, _, _, S_pooled) <- pooling X Y ;; Ret S_pooled)%py.

Section Test.

(** [scipy.stats.f(dfn, dfd).cdf], outside this repository, for positive
    degrees of freedom. *)
Variable F_cdf : Z -> Z -> Qc -> Qc.

(** [f(dfn, dfd).cdf(x)]: [nan] when a degree of freedom is not positive. *)
Definition cdf (dfn dfd : Z) (x : Qc) : outcome Qc :=
  if ((0 <? dfn) && (0 <? dfd))%Z%bool then Ret (F_cdf dfn dfd x) else NonFinite.

Definition TwoSampleT2Test (X Y : ndarray Qc) : outcome result :=
  ('(nx, ny, p, delta, S_pooled) <- pooling X Y ;;
   k <- int_div (nx * ny) (t2_divisor nx ny) ;;
   S_inv <- linalg_inv S_pooled ;;
   q <- matmul (transpose delta) S_inv ;;
   q <- matmul q delta ;;
   let t_squared := scale k q in
   statistic <- div_int (scale (QcZ (nx + ny - p - 1)) t_squared)
                        (F_divisor nx ny p) ;;
   c <- mapM_array (cdf p (nx + ny - p - 1)) statistic ;;
   let p_value := astype (fun x => 1 - x) c in
   Ret {| printed := (statistic, (p, nx + ny - p - 1)%Z, p_value);
          returned := (statistic, p_value) |})%py.

End Test.

(** The F distribution function in closed form where it is rational:
    [dfn = 2] and [dfd] even, [1 - (1 + 2x/dfd)^(-dfd/2)] for [x > 0]. *)
Definition F_cdf_2 (dfn dfd : Z) (x : Qc) : Qc :=
  if Qc_eq_bool x 0 then 0
  else match x ?= 0 with
       | Lt => 0
       | _ => 1 - / ((1 + QcZ 2 * x / QcZ dfd) ^ Z.to_nat (dfd / 2))
       end.


(** Samples to run the test on: one feature ([one_c] has two rows only),
    two features ([line_a], [line_b]: points of one line), and three
    features in two rows. *)
Definition one_a : ndarray Qc := Arr2 1 (of_ints [[1]; [2]; [4]]%Z).
Definition one_b : ndarray Qc := Arr2 1 (of_ints [[0]; [1]; [2]; [5]]%Z).
Definition one_c : ndarray Qc := Arr2 1 (of_ints [[0]; [1]]%Z).
Definition two_a : ndarray Qc := Arr2 2 (of_ints [[1; 2]; [2; 1]; [4; 5]]%Z).
Definition two_b : ndarray Qc := Arr2 2 (of_ints [[0; 0]; [1; 3]; [2; 1]; [5; 5]]%Z).
Definition line_a : ndarray Qc := Arr2 2 (of_ints [[1; 2]; [2; 4]; [3; 6]]%Z).
Definition line_b : ndarray Qc := Arr2 2 (of_ints [[0; 0]; [1; 2]; [5; 10]]%Z).
Definition three_a : ndarray Qc := Arr2 3 (of_ints [[0; 1; 2]; [1; 1; 1]]%Z).
Definition three_b : ndarray Qc := Arr2 3 (of_ints [[1; 2; 3]; [4; 5; 7]]%Z).

End Hotelling.

(** ** The test in the words of the specification

    Written from section 4.2 of the specification, entry by entry, to be
    compared with what the code computes. *)

Module Spec.

Import Numpy.
Open Scope Qc_scope.

(** The number of observations of a sample. *)
Definition n_obs (X : mat) : Qc := QcZ (Z.of_nat (length X)).

Definition entry (X : mat) (i j : nat) : Qc := nth j (nth i X []) 0.

(** The sum of [f 0 ... f (n-1)]. *)
Definition sum_over (n : nat) (f : nat -> Qc) : Qc := vsum (map f (seq 0 n)).

(** Step 1: per-column means and their difference. *)
Definition col_mean (X : mat) (j : nat) : Qc :=
  sum_over (length X) (fun i => entry X i j) / n_obs X.

Definition mean_difference (p : nat) (X Y : mat) : vec :=
  map (fun j => col_mean X j - col_mean Y j) (seq 0 p).

(** Step 2: the sample covariance with the unbiased [n - 1] divisor. *)
Definition sample_cov (p : nat) (X : mat) : mat :=
  map (fun j =>
         map (fun k =>
                sum_over (length X)
                         (fun i => (entry X i j - col_mean X j)
                                   * (entry X i k - col_mean X k))
                / (n_obs X - 1))
             (seq 0 p))
      (seq 0 p).

(** Step 3: the pooled covariance. *)
Definition pooled_cov (p : nat) (X Y : mat) : mat :=
  map (fun j =>
         map (fun k =>
                ((n_obs X - 1) * entry (sample_cov p X) j k
                 + (n_obs Y - 1) * entry (sample_cov p Y) j k)
                / (n_obs X + n_obs Y - QcZ 2))
             (seq 0 p))
      (seq 0 p).

(** Step 4: Hotelling's T squared, with [B] the inverse of the pooled
    covariance. *)
Definition quadratic_form (p : nat) (d : vec) (B : mat) : Qc :=
  sum_over p (fun j => sum_over p (fun k => nth j d 0 * entry B j k * nth k d 0)).

Definition T2 (p : nat) (X Y B : mat) : Qc :=
  (n_obs X * n_obs Y) / (n_obs X + n_obs Y)
  * quadratic_form p (mean_difference p X Y) B.

(** Step 5: the F statistic; steps 6 and 7: degrees of freedom and
    p-value. *)
Definition F_statistic (p : nat) (X Y B : mat) : Qc :=
  T2 p X Y B * (n_obs X + n_obs Y - QcZ (Z.of_nat p) - 1)
  / (QcZ (Z.of_nat p) * (n_obs X + n_obs Y - QcZ 2)).

Definition p_value (F_cdf : Z -> Z -> Qc -> Qc) (p : nat) (X Y B : mat) : Qc :=
  1 - F_cdf (Z.of_nat p)
            (Z.of_nat (length X) + Z.of_nat (length Y) - Z.of_nat p - 1)%Z
            (F_statistic p X Y B).

End Spec.

(** * Properties of [array_to_LaTeX] *)

Section LatexProperties.

Import LatexMatrix.
Open Scope string_scope.
Open Scope list_scope.

(** Decide the comparisons of two literal characters in the goal. *)
Ltac ascii_cases :=
  repeat match goal with
         | |- context [ascii_dec ?a ?b] =>
             destruct (ascii_dec a b) as [?|?];
             try discriminate; try contradiction; cbn [prefix]
         end.

Lemma mapM_rows (g : list string -> string) (c : nat) (done rest : list (list string)) :
  mapM (fun i => (l <- row_tolist (Arr2 c (done ++ rest)) i ;; Ret (g l))%py)
       (seq (length done) (length rest))
  = Ret (map g rest).
Proof.
  revert done; induction rest as [|r rest IH]; intros done; [reflexivity|].
  cbn [length seq mapM row_tolist].
  rewrite nth_error_app2, Nat.sub_diag by lia. cbn [nth_error bind].
  replace (done ++ r :: rest) with ((done ++ [r]) ++ rest)
    by (rewrite <- app_assoc; reflexivity).
  specialize (IH (done ++ [r])).
  rewrite length_app, Nat.add_1_r in IH. cbn [row_tolist] in IH.
  rewrite IH. reflexivity.
Qed.

(** On a 2-d array the list comprehension visits the rows in order. *)
Lemma array_to_LaTeX_rows (A : Type) (to_str : A -> string)
      (c : nat) (rows : list (list A)) :
  array_to_LaTeX to_str (Arr2 c rows)
  = Ret (header ++ join line_sep (map (row_segment to_str) rows) ++ footer)%string.
Proof.
  unfold array_to_LaTeX. cbn [astype shape0 bind].
  rewrite length_map.
  pose proof (mapM_rows (join row_sep) c [] (map (map to_str) rows)) as H.
  cbn [length app] in H. rewrite length_map in H. rewrite H.
  cbn [bind]. rewrite map_map. reflexivity.
Qed.

(** *** Characters of a printed integer *)

Lemma lacks_app (k : ascii) (s t : string) :
  lacks k (s ++ t)%string = lacks k s && lacks k t.
Proof.
  induction s as [|d s IH]; cbn [append lacks]; [reflexivity|].
  rewrite IH, andb_assoc. reflexivity.
Qed.

Lemma digit_char_range (d : Z) :
  (0 <= d < 10)%Z ->
  digit_char d <> " "%char /\ digit_char d <> "&"%char /\ digit_char d <> "\"%char.
Proof.
  intros H.
  assert (Hd : (d = 0 \/ d = 1 \/ d = 2 \/ d = 3 \/ d = 4 \/ d = 5 \/ d = 6
               \/ d = 7 \/ d = 8 \/ d = 9)%Z) by lia.
  repeat (destruct Hd as [-> | Hd]); try subst d;
    (repeat split; discriminate).
Qed.

Lemma lacks_digit (k : ascii) (d : Z) (s : string) :
  sep_char k -> (0 <= d < 10)%Z -> lacks k s = true ->
  lacks k (String (digit_char d) s) = true.
Proof.
  intros Hk Hd Hs. cbn [lacks]. rewrite Hs, andb_true_r.
  apply negb_true_iff, Ascii.eqb_neq.
  destruct (digit_char_range Hd) as (H1 & H2 & H3).
  destruct Hk as [-> | [-> | ->]]; congruence.
Qed.

Lemma lacks_digits (k : ascii) (fuel : nat) :
  sep_char k ->
  forall (n : Z) (acc : string),
    lacks k acc = true -> lacks k (digits fuel n acc) = true.
Proof.
  intros Hk. induction fuel as [|f IH]; intros n acc Hacc; [exact Hacc|].
  cbn [digits].
  assert (H : lacks k (String (digit_char (n mod 10)) acc) = true)
    by (apply lacks_digit; auto; apply Z.mod_pos_bound; lia).
  destruct (n / 10 =? 0)%Z; auto.
Qed.

Lemma lacks_str (k : ascii) (z : Z) : sep_char k -> lacks k (str z) = true.
Proof.
  intros Hk. unfold str. destruct (z <? 0)%Z.
  - cbn [lacks]. rewrite lacks_digits by auto. rewrite andb_true_r.
    apply negb_true_iff, Ascii.eqb_neq.
    destruct Hk as [-> | [-> | ->]]; discriminate.
  - apply lacks_digits; auto.
Qed.

Lemma str_examples :
  str 0 = "0"%string /\ str 122 = "122"%string /\ str (-45) = "-45"%string
  /\ str 1000 = "1000"%string.
Proof. repeat split. Qed.

(** *** Counting separators *)

Lemma prefix_miss (k : ascii) (p s t : string) :
  k <> " "%char -> lacks k s = true -> starts_blank t ->
  prefix (String k p) (s ++ t)%string = false.
Proof.
  intros Hk Hs Ht. destruct s as [|d s]; cbn [append].
  - destruct Ht as [-> | [t' ->]]; cbn [prefix]; [reflexivity|].
    destruct (ascii_dec k " "); [contradiction | reflexivity].
  - cbn [lacks] in Hs. apply andb_true_iff in Hs as [Hd _].
    apply negb_true_iff, Ascii.eqb_neq in Hd.
    cbn [prefix]. destruct (ascii_dec k d); [contradiction | reflexivity].
Qed.

(** A separator [" k..."] does not start inside text without [k], nor
    across its end. *)
Lemma count_skip (k : ascii) (p s t : string) :
  k <> " "%char -> lacks k s = true -> starts_blank t ->
  count (String " " (String k p)) (s ++ t)%string
  = count (String " " (String k p)) t.
Proof.
  intros Hk Hs Ht. induction s as [|d s IH]; [reflexivity|].
  cbn [lacks] in Hs. apply andb_true_iff in Hs as [_ Hs].
  cbn [append count].
  replace (prefix (String " " (String k p)) (String d (s ++ t))) with false.
  - cbn [Nat.add]. auto.
  - cbn [prefix]. destruct (ascii_dec " " d); [|reflexivity].
    symmetry. apply prefix_miss; auto.
Qed.

Lemma append_assoc' (a b c : string) :
  ((a ++ b) ++ c = a ++ (b ++ c))%string.
Proof. induction a as [|x a IH]; cbn [append]; [reflexivity | now rewrite IH]. Qed.

Lemma append_nil_r (a : string) : (a ++ "")%string = a.
Proof. induction a as [|x a IH]; cbn [append]; [reflexivity | now rewrite IH]. Qed.

Lemma count_cons (pat : string) (c : ascii) (s : string) :
  count pat (String c s)
  = ((if prefix pat (String c s) then 1 else 0) + count pat s)%nat.
Proof. reflexivity. Qed.

Lemma count_row_sep_head (u : string) :
  count row_sep (row_sep ++ u)%string = S (count row_sep (String " " u)).
Proof.
  unfold row_sep. cbn [append]. rewrite 2 count_cons. cbn [prefix].
  ascii_cases. destruct u; reflexivity.
Qed.

Lemma count_line_sep_head (u : string) :
  count line_sep (line_sep ++ u)%string = S (count line_sep (String " " u)).
Proof.
  unfold line_sep. cbn [append]. rewrite 3 count_cons. cbn [prefix].
  ascii_cases. destruct u; reflexivity.
Qed.

(** Elements without [&] joined by [" & "]: one separator between two
    neighbours, whatever [&]-free text comes before. *)
Lemma count_row_sep (l : list string) :
  Forall (fun e => lacks "&" e = true) l ->
  forall pre e : string,
    lacks "&" pre = true -> lacks "&" e = true ->
    count row_sep (pre ++ join row_sep (e :: l))%string = length l.
Proof.
  induction 1 as [|e2 l He2 Hl IH]; intros pre e Hpre He.
  - cbn [join length]. rewrite <- (append_nil_r (pre ++ e)).
    unfold row_sep. rewrite count_skip; [reflexivity | discriminate | | left; reflexivity].
    rewrite lacks_app, Hpre, He. reflexivity.
  - change (join row_sep (e :: e2 :: l))
      with (e ++ row_sep ++ join row_sep (e2 :: l))%string.
    rewrite <- append_assoc'. unfold row_sep at 1 2.
    rewrite count_skip;
      [ | discriminate | rewrite lacks_app, Hpre, He; reflexivity
        | right; eexists; reflexivity ].
    fold row_sep. rewrite count_row_sep_head.
    cbn [length]. f_equal. apply (IH " "%string e2 eq_refl He2).
Qed.

(** Rows without a backslash joined by [" \\ "] and followed by the
    footer. *)
Lemma count_line_sep (l : list string) :
  Forall (fun e => lacks "\" e = true) l ->
  forall pre e : string,
    lacks "\" pre = true -> lacks "\" e = true ->
    count line_sep (pre ++ join line_sep (e :: l) ++ footer)%string = length l.
Proof.
  induction 1 as [|e2 l He2 Hl IH]; intros pre e Hpre He.
  - cbn [join length]. rewrite <- append_assoc'.
    unfold line_sep. rewrite count_skip;
      [reflexivity | discriminate | | right; eexists; reflexivity].
    rewrite lacks_app, Hpre, He. reflexivity.
  - change (join line_sep (e :: e2 :: l))
      with (e ++ line_sep ++ join line_sep (e2 :: l))%string.
    rewrite (append_assoc' e), <- (append_assoc' pre).
    rewrite (append_assoc' line_sep).
    unfold line_sep at 1 2.
    rewrite count_skip;
      [ | discriminate | rewrite lacks_app, Hpre, He; reflexivity
        | right; eexists; reflexivity ].
    fold line_sep. rewrite count_line_sep_head.
    cbn [length]. f_equal. apply (IH " "%string e2 eq_refl He2).
Qed.

Lemma lacks_join (k : ascii) (sep : string) (l : list string) :
  lacks k sep = true -> Forall (fun e => lacks k e = true) l ->
  lacks k (join sep l) = true.
Proof.
  intros Hsep. induction 1 as [|e l He Hl IH]; [reflexivity|].
  destruct l as [|e2 l]; [exact He|].
  change (join sep (e :: e2 :: l)) with (e ++ sep ++ join sep (e2 :: l))%string.
  rewrite !lacks_app, He, Hsep, IH. reflexivity.
Qed.

Lemma plain_str : plain str.
Proof. intros z k Hk. now apply lacks_str. Qed.

Lemma lacks_row_segment (A : Type) (to_str : A -> string) (r : list A) :
  plain to_str -> lacks "\" (row_segment to_str r) = true.
Proof.
  intros Hp. apply lacks_join; [reflexivity|].
  apply Forall_map, Forall_forall. intros z _. apply Hp.
  right; right; reflexivity.
Qed.

Lemma count_row_segment (A : Type) (to_str : A -> string) (r : list A) :
  plain to_str ->
  count row_sep (row_segment to_str r) = (length r - 1)%nat.
Proof.
  intros Hp. destruct r as [|x r]; [reflexivity|].
  unfold row_segment. cbn [map length Nat.sub]. rewrite Nat.sub_0_r.
  rewrite <- (length_map to_str r).
  apply (count_row_sep (l := map to_str r)) with (pre := ""%string);
    [ | reflexivity | apply Hp; right; left; reflexivity ].
  apply Forall_map, Forall_forall. intros z _. apply Hp.
  right; left; reflexivity.
Qed.

Lemma count_lines (A : Type) (to_str : A -> string) (rows : list (list A)) :
  plain to_str ->
  count line_sep (header ++ join line_sep (map (row_segment to_str) rows) ++ footer)%string
  = (length rows - 1)%nat.
Proof.
  intros Hp. destruct rows as [|r rows]; [reflexivity|].
  cbn [map length Nat.sub]. rewrite Nat.sub_0_r.
  rewrite <- (length_map (row_segment to_str) rows).
  unfold header. cbn [append]. rewrite count_cons.
  replace (prefix line_sep _) with false
    by (unfold line_sep; cbn [prefix]; ascii_cases; reflexivity).
  cbn [Nat.add].
  apply (count_line_sep (l := map (row_segment to_str) rows))
    with (pre := "begin{bmatrix} "%string);
    [ | reflexivity | now apply lacks_row_segment ].
  apply Forall_map, Forall_forall. intros z _. now apply lacks_row_segment.
Qed.

End LatexProperties.

(** * The claims about [array_to_LaTeX] *)

Section LatexClaims.

Import LatexMatrix.
Open Scope string_scope.
Open Scope list_scope.

(** C2: on every 2-d array (so on every non-empty rectangular matrix)
    [array_to_LaTeX] returns the header ["\begin{bmatrix} "], then the
    rows joined by [" \\ "], then the footer [" \end{bmatrix}"], where a
    row is its elements' textual forms joined by [" & "]; the script's own
    3 by 3 array gives the text of the specification. *)
Theorem array_to_LaTeX_bmatrix :
  (forall (A : Type) (to_str : A -> string) (c : nat) (rows : list (list A)),
      array_to_LaTeX to_str (Arr2 c rows)
      = Ret ("\begin{bmatrix} "
             ++ join " \\ " (map (fun r => join " & " (map to_str r)) rows)
             ++ " \end{bmatrix}")%string)
  /\ array_to_LaTeX str (Arr2 3 [[3; 4; 5]; [6; 7; 9]; [4; 5; 122]]%Z)
     = Ret "\begin{bmatrix} 3 & 4 & 5 \\ 6 & 7 & 9 \\ 4 & 5 & 122 \end{bmatrix}".
Proof.
  split; [|reflexivity].
  intros A to_str c rows. apply array_to_LaTeX_rows.
Qed.

(** C4, as the code has it: an empty matrix is not refused.  A 2-d array
    with no row or no column makes [array_to_LaTeX] return the header and
    the footer around its (empty) rows joined by [" \\ "]: with no row at
    all, the text ["\begin{bmatrix}  \end{bmatrix}"]. *)
Theorem array_to_LaTeX_empty (A : Type) (to_str : A -> string)
    (c : nat) (rows : list (list A)) :
  wf2 c rows -> rows = [] \/ c = 0%nat ->
  array_to_LaTeX to_str (Arr2 c rows)
  = Ret ("\begin{bmatrix} " ++ join " \\ " (map (fun _ => "") rows)
         ++ " \end{bmatrix}")%string.
Proof.
  intros Hwf Hempty. rewrite array_to_LaTeX_rows.
  unfold header, footer, line_sep. do 4 f_equal.
  apply map_ext_in. intros r Hr.
  destruct Hempty as [-> | ->]; [destruct Hr|].
  unfold wf2 in Hwf. rewrite Forall_forall in Hwf.
  specialize (Hwf r Hr). destruct r; [reflexivity | discriminate].
Qed.

Lemma array_to_LaTeX_empty_witness :
  array_to_LaTeX str (Arr2 0 [[]; []])
  = Ret "\begin{bmatrix}  \\  \end{bmatrix}".
Proof.
  apply (@array_to_LaTeX_empty Z str 0 [[]; []]).
  - repeat constructor.
  - right; reflexivity.
Defined.

(** C4 as stated fails: the matrix with no row is answered with a string,
    not with an error. *)
Lemma array_to_LaTeX_empty_not_refused :
  array_to_LaTeX str (Arr2 3 []) = Ret "\begin{bmatrix}  \end{bmatrix}"
  /\ forall e : exn, array_to_LaTeX str (Arr2 3 []) <> Raise e.
Proof. split; [reflexivity | discriminate]. Qed.

(** C8: for a rectangular matrix with [r] rows and [c] columns whose
    elements print without separator characters (numbers do), the result
    is the header, [r] row segments joined by [" \\ "] and the footer; it
    holds exactly [r - 1] row separators [" \\ "], and every row segment
    holds exactly [c - 1] element separators [" & "] (no separator at all
    when there is no row, or no column). *)
Theorem array_to_LaTeX_separators (A : Type) (to_str : A -> string)
    (c : nat) (rows : list (list A)) :
  plain to_str -> wf2 c rows ->
  exists (s : string) (segments : list string),
    array_to_LaTeX to_str (Arr2 c rows) = Ret s
    /\ s = ("\begin{bmatrix} " ++ join " \\ " segments ++ " \end{bmatrix}")%string
    /\ length segments = length rows
    /\ count " \\ " s = (length rows - 1)%nat
    /\ Forall (fun g => count " & " g = (c - 1)%nat) segments.
Proof.
  intros Hp Hwf.
  exists (header ++ join line_sep (map (row_segment to_str) rows) ++ footer)%string,
         (map (row_segment to_str) rows).
  split; [apply array_to_LaTeX_rows|].
  split; [reflexivity|].
  split; [apply length_map|].
  split; [now apply count_lines|].
  apply Forall_map. unfold wf2 in Hwf.
  eapply Forall_impl; [|exact Hwf].
  intros r Hlen. cbn beta in Hlen |- *. rewrite <- Hlen.
  now apply count_row_segment.
Qed.

Lemma array_to_LaTeX_separators_witness :
  exists (s : string) (segments : list string),
    array_to_LaTeX str A = Ret s
    /\ s = ("\begin{bmatrix} " ++ join " \\ " segments ++ " \end{bmatrix}")%string
    /\ length segments = 3%nat
    /\ count " \\ " s = 2%nat
    /\ Forall (fun g => count " & " g = 2%nat) segments.
Proof.
  apply (@array_to_LaTeX_separators Z str 3 [[3; 4; 5]; [6; 7; 9]; [4; 5; 122]]%Z).
  - exact plain_str.
  - repeat constructor.
Defined.

End LatexClaims.

(** * Linear algebra on lists *)

Section LinearAlgebra.

Import Numpy.
Open Scope Qc_scope.

Lemma length_vadd (u v : vec) : length (vadd u v) = Nat.min (length u) (length v).
Proof. unfold vadd. now rewrite length_map, length_combine. Qed.

Lemma length_vsub (u v : vec) : length (vsub u v) = Nat.min (length u) (length v).
Proof. unfold vsub. now rewrite length_map, length_combine. Qed.

Lemma length_vscale (c : Qc) (v : vec) : length (vscale c v) = length v.
Proof. apply length_map. Qed.

Lemma length_zeros (n : nat) : length (zeros n) = n.
Proof. apply repeat_length. Qed.

Lemma length_vecmat (w : nat) (a : mat) :
  wf2 w a -> forall v, length (vecmat w v a) = w.
Proof.
  induction 1 as [|r a Hr Ha IH]; intros [|x v]; cbn [vecmat];
    try apply length_zeros.
  rewrite length_vadd, length_vscale, IH, Hr. apply Nat.min_id.
Qed.

Lemma vadd_cons (x y : Qc) (u v : vec) : vadd (x :: u) (y :: v) = (x + y) :: vadd u v.
Proof. reflexivity. Qed.

Lemma vsub_cons (x y : Qc) (u v : vec) : vsub (x :: u) (y :: v) = (x - y) :: vsub u v.
Proof. reflexivity. Qed.

Lemma vscale_cons (c x : Qc) (u : vec) : vscale c (x :: u) = (c * x) :: vscale c u.
Proof. reflexivity. Qed.

Lemma dot_cons (x y : Qc) (u v : vec) : dot (x :: u) (y :: v) = x * y + dot u v.
Proof. reflexivity. Qed.

(** Two vectors of one length, taken apart together. *)
Lemma vec_ind2 (P : vec -> vec -> Prop) :
  P [] [] ->
  (forall x y u v, length u = length v -> P u v -> P (x :: u) (y :: v)) ->
  forall u v, length u = length v -> P u v.
Proof.
  intros H0 HS. induction u as [|x u IH]; intros [|y v] H; try discriminate.
  - exact H0.
  - apply HS; [|apply IH]; now injection H.
Qed.

Lemma vadd_zeros_l (v : vec) : vadd (zeros (length v)) v = v.
Proof.
  induction v as [|x v IH]; [reflexivity|].
  cbn [length zeros repeat]. rewrite vadd_cons. fold (zeros (length v)).
  rewrite IH. f_equal. ring.
Qed.

Lemma vadd_zeros_r (v : vec) : vadd v (zeros (length v)) = v.
Proof.
  induction v as [|x v IH]; [reflexivity|].
  cbn [length zeros repeat]. rewrite vadd_cons. fold (zeros (length v)).
  rewrite IH. f_equal. ring.
Qed.

Lemma vscale_zeros (c : Qc) (n : nat) : vscale c (zeros n) = zeros n.
Proof.
  induction n as [|n IH]; [reflexivity|].
  cbn [zeros repeat]. rewrite vscale_cons. fold (zeros n). rewrite IH.
  f_equal. ring.
Qed.

Lemma vscale_vadd (c : Qc) (u v : vec) :
  vscale c (vadd u v) = vadd (vscale c u) (vscale c v).
Proof.
  revert v; induction u as [|x u IH]; intros [|y v]; try reflexivity.
  rewrite vadd_cons, !vscale_cons, vadd_cons, IH. f_equal. ring.
Qed.

Lemma vscale_vscale (c d : Qc) (v : vec) : vscale c (vscale d v) = vscale (c * d) v.
Proof.
  induction v as [|x v IH]; [reflexivity|].
  rewrite !vscale_cons, IH. f_equal. ring.
Qed.

Lemma vscale_1 (v : vec) : vscale 1 v = v.
Proof.
  induction v as [|x v IH]; [reflexivity|].
  rewrite vscale_cons, IH. f_equal. ring.
Qed.

Lemma vadd_add_scale (c d : Qc) (v : vec) :
  vadd (vscale c v) (vscale d v) = vscale (c + d) v.
Proof.
  induction v as [|x v IH]; [reflexivity|].
  rewrite !vscale_cons, vadd_cons, IH. f_equal. ring.
Qed.

(** [(a + b) + (c + d) = (a + c) + (b + d)] on vectors. *)
Lemma vadd_interchange (a b c d : vec) :
  vadd (vadd a b) (vadd c d) = vadd (vadd a c) (vadd b d).
Proof.
  revert b c d; induction a as [|x a IH]; intros [|y b] [|z c] [|t d];
    try reflexivity.
  rewrite !vadd_cons, IH. f_equal. ring.
Qed.

Lemma vsub_as_vadd (u v : vec) : vsub u v = vadd u (vscale (- (1)) v).
Proof.
  revert v; induction u as [|x u IH]; intros [|y v]; try reflexivity.
  rewrite vsub_cons, vscale_cons, vadd_cons, IH.
  replace (x - y) with (x + - (1) * y) by ring. reflexivity.
Qed.

Lemma vscale_0 (v : vec) : vscale 0 v = zeros (length v).
Proof.
  induction v as [|x v IH]; [reflexivity|].
  rewrite vscale_cons, IH. cbn [length zeros repeat]. f_equal. ring.
Qed.

Lemma vscale_app (c : Qc) (u v : vec) : vscale c (u ++ v) = vscale c u ++ vscale c v.
Proof. apply map_app. Qed.

Lemma vsub_app (u1 v1 u2 v2 : vec) :
  length u1 = length v1 ->
  vsub (u1 ++ u2) (v1 ++ v2) = vsub u1 v1 ++ vsub u2 v2.
Proof.
  intros H. revert u1 v1 H. apply (vec_ind2 (fun u1 v1 => _)); [reflexivity|].
  intros x y u v _ IH. cbn [app]. rewrite !vsub_cons, IH. reflexivity.
Qed.

Lemma vsub_zeros_r (v : vec) : vsub v (zeros (length v)) = v.
Proof.
  induction v as [|x v IH]; [reflexivity|].
  cbn [length zeros repeat]. rewrite vsub_cons. fold (zeros (length v)).
  rewrite IH. f_equal. ring.
Qed.

Lemma vadd_vsub_cancel (u v : vec) :
  length u = length v -> vadd (vsub u v) v = u.
Proof.
  revert u v. apply (vec_ind2 (fun u v => _)); [reflexivity|].
  intros x y u v _ IH. rewrite vsub_cons, vadd_cons, IH. f_equal. ring.
Qed.

Lemma vadd_zeros_l' (n : nat) (v : vec) : length v = n -> vadd (zeros n) v = v.
Proof. intros <-. apply vadd_zeros_l. Qed.

Lemma vadd_zeros_r' (n : nat) (v : vec) : length v = n -> vadd v (zeros n) = v.
Proof. intros <-. apply vadd_zeros_r. Qed.

(** *** The row vector times matrix product is linear *)

Lemma vecmat_nil_r (w : nat) (v : vec) : vecmat w v [] = zeros w.
Proof.
  destruct v; reflexivity.
Qed.

Lemma vecmat_vscale (w : nat) (c : Qc) (v : vec) (a : mat) :
  vecmat w (vscale c v) a = vscale c (vecmat w v a).
Proof.
  revert a; induction v as [|x v IH]; intros [|r a];
    try rewrite vscale_cons; cbn [vecmat];
    try (symmetry; apply vscale_zeros).
  rewrite IH, vscale_vadd, vscale_vscale. reflexivity.
Qed.

Lemma vecmat_vadd (w : nat) (a : mat) :
  wf2 w a ->
  forall u v, length u = length v ->
    vecmat w (vadd u v) a = vadd (vecmat w u a) (vecmat w v a).
Proof.
  intros Hwf u v H. revert a Hwf. revert u v H.
  apply (vec_ind2 (fun u v => forall a, wf2 w a -> _)).
  - intros a _. cbn [vadd combine map vecmat].
    symmetry. apply vadd_zeros_l', length_zeros.
  - intros x y u v _ IH [|r a] Hwf.
    + rewrite !vecmat_nil_r.
      symmetry. apply vadd_zeros_l', length_zeros.
    + inversion Hwf as [|? ? Hr Ha]; subst.
      rewrite vadd_cons. cbn [vecmat]. rewrite (IH a Ha).
      rewrite vadd_interchange, vadd_add_scale. reflexivity.
Qed.

Lemma vecmat_vsub (w : nat) (a : mat) :
  wf2 w a ->
  forall u v, length u = length v ->
    vecmat w (vsub u v) a = vsub (vecmat w u a) (vecmat w v a).
Proof.
  intros Hwf u v H.
  rewrite !vsub_as_vadd, vecmat_vadd, vecmat_vscale;
    [reflexivity | exact Hwf | now rewrite length_vscale].
Qed.

Lemma vecmat_zeros (w : nat) (a : mat) :
  wf2 w a -> forall n, vecmat w (zeros n) a = zeros w.
Proof.
  induction 1 as [|r a Hr Ha IH]; intros n; [apply vecmat_nil_r|].
  destruct n as [|n]; [reflexivity|].
  cbn [zeros repeat vecmat]. fold (zeros n).
  rewrite IH, vscale_0, Hr. apply vadd_zeros_l', length_zeros.
Qed.

Lemma vecmat_unit (w : nat) (a : mat) :
  wf2 w a ->
  forall i, (i < length a)%nat ->
    vecmat w (unit_vec (length a) i) a = nth i a (zeros w).
Proof.
  induction 1 as [|r a Hr Ha IH]; intros i Hi; [inversion Hi|].
  cbn [length unit_vec]. destruct i as [|i]; cbn [vecmat nth].
  - rewrite vecmat_zeros, vscale_1 by exact Ha.
    now apply vadd_zeros_r'.
  - cbn [length] in Hi. rewrite vscale_0, Hr.
    rewrite <- IH by lia. apply vadd_zeros_l'. now apply length_vecmat.
Qed.

(** *** Unit vectors and the identity *)

Lemma length_unit_vec (n i : nat) : length (unit_vec n i) = n.
Proof.
  revert i; induction n as [|n IH]; intros i; [reflexivity|].
  destruct i; cbn [unit_vec length]; [now rewrite length_zeros | now rewrite IH].
Qed.

Lemma zeros_snoc (k : nat) : zeros (S k) = zeros k ++ [0].
Proof. unfold zeros. cbn [repeat]. apply repeat_cons. Qed.

Lemma unit_vec_snoc (k i : nat) :
  (i < k)%nat -> unit_vec (S k) i = unit_vec k i ++ [0].
Proof.
  revert i; induction k as [|k IH]; intros i Hi; [inversion Hi|].
  destruct i as [|i].
  - cbn [unit_vec app]. now rewrite zeros_snoc.
  - change (unit_vec (S (S k)) (S i)) with (0 :: unit_vec (S k) i).
    rewrite IH by lia. reflexivity.
Qed.

Lemma unit_vec_last (k : nat) : unit_vec (S k) k = zeros k ++ [1].
Proof.
  induction k as [|k IH]; [reflexivity|].
  change (unit_vec (S (S k)) (S k)) with (0 :: unit_vec (S k) k).
  rewrite IH. reflexivity.
Qed.

Lemma identity_snoc (k : nat) :
  identity (S k) = map (fun r => r ++ [0]) (identity k) ++ [zeros k ++ [1]].
Proof.
  unfold identity. rewrite seq_S, map_app. cbn [map Nat.add].
  rewrite unit_vec_last, map_map. f_equal.
  apply map_ext_in. intros i Hi. apply in_seq in Hi.
  apply unit_vec_snoc. lia.
Qed.

Lemma length_identity (p : nat) : length (identity p) = p.
Proof. unfold identity. now rewrite length_map, length_seq. Qed.

Lemma wf2_identity (p : nat) : wf2 p (identity p).
Proof.
  unfold wf2, identity. apply Forall_map, Forall_forall.
  intros i _. apply length_unit_vec.
Qed.

Lemma nth_identity (p i : nat) (d : vec) :
  (i < p)%nat -> nth i (identity p) d = unit_vec p i.
Proof.
  intros Hi. unfold identity.
  rewrite (nth_indep _ d (unit_vec p 0)) by now rewrite length_map, length_seq.
  rewrite (map_nth (unit_vec p) (seq 0 p) 0%nat i), seq_nth; auto.
Qed.

Lemma spans_identity (p : nat) : spans p (identity p).
Proof.
  intros w D1 D2 H1 H2 L1 L2 H.
  apply (nth_ext D1 D2 (zeros w) (zeros w)); [congruence|].
  intros i Hi.
  assert (Hin : In (unit_vec p i) (identity p)).
  { unfold identity. apply in_map, in_seq. lia. }
  specialize (H _ Hin).
  rewrite <- L1 in H at 1. rewrite <- L2 in H.
  rewrite !vecmat_unit in H by (auto; lia). exact H.
Qed.

(** *** Choice of the pivot *)

Lemma find_pivot_some (todo : list arow) (pv : arow) (rest : list arow) :
  find_pivot todo = Some (pv, rest) ->
  lead pv <> 0 /\ Permutation todo (pv :: rest).
Proof.
  revert pv rest; induction todo as [|r todo IH]; intros pv rest H;
    [discriminate|].
  cbn [find_pivot] in H.
  destruct (Qc_eq_bool (lead r) 0) eqn:E.
  - destruct (find_pivot todo) as [[pv' others]|]; [|discriminate].
    injection H as <- <-. destruct (IH _ _ eq_refl) as [Hl Hp].
    split; [exact Hl|].
    rewrite Hp. apply perm_swap.
  - injection H as <- <-. split; [|reflexivity].
    intros H0. unfold Qc_eq_bool in E.
    destruct (Qc_eq_dec (lead r) 0); [discriminate | contradiction].
Qed.

Lemma find_pivot_none (todo : list arow) :
  find_pivot todo = None -> Forall (fun r => lead r = 0) todo.
Proof.
  induction todo as [|r todo IH]; intros H; [constructor|].
  cbn [find_pivot] in H.
  destruct (Qc_eq_bool (lead r) 0) eqn:E; [|discriminate].
  constructor; [now apply Qc_eq_bool_correct|].
  apply IH. destruct (find_pivot todo) as [[? ?]|]; [discriminate | reflexivity].
Qed.

(** *** One step of the elimination *)

Section Elimination.

Variables (p : nat) (a : mat).
Hypothesis wf_a : wf2 p a.

Lemma row_ok_normalize (k : nat) (pv : arow) :
  (k < p)%nat -> lead pv <> 0 ->
  row_ok p a (zeros k) pv -> row_ok p a (zeros k ++ [1]) (normalize pv).
Proof.
  intros Hk Hc (Hlen & Hn & Heq). destruct pv as [m n].
  cbn [fst snd] in *. rewrite length_zeros in Hlen.
  destruct m as [|c m]; [cbn [length] in Hlen; lia|].
  unfold lead in Hc. cbn [fst hd] in Hc.
  unfold normalize, lead, row_ok. cbn [fst snd hd tl].
  repeat split.
  - rewrite length_app, length_zeros, length_vscale. cbn [length] in *. lia.
  - now rewrite length_vscale.
  - rewrite vecmat_vscale, Heq, vscale_app, vscale_zeros, vscale_cons.
    rewrite <- app_assoc. cbn [app]. do 2 f_equal. now field.
Qed.

Lemma row_ok_eliminate (k : nat) (pre : vec) (pv r : arow) :
  (k < p)%nat -> length pre = k ->
  row_ok p a (zeros k ++ [1]) pv -> row_ok p a pre r ->
  row_ok p a (pre ++ [0]) (eliminate pv r).
Proof.
  intros Hk Hpre (Hlen' & Hn' & Heq') (Hlen & Hn & Heq).
  destruct pv as [pm pn], r as [m n]. cbn [fst snd] in *.
  rewrite length_app, length_zeros in Hlen'. cbn [length] in Hlen'.
  destruct m as [|d m]; [cbn [length] in Hlen; lia|].
  cbn [length] in Hlen.
  unfold eliminate, lead, row_ok. cbn [fst snd hd tl].
  repeat split.
  - rewrite length_app, length_vsub, length_vscale. cbn [length]. lia.
  - rewrite length_vsub, length_vscale. lia.
  - rewrite vecmat_vsub, vecmat_vscale, Heq, Heq'
      by (auto; rewrite length_vscale; lia).
    rewrite <- app_assoc. cbn [app].
    rewrite vscale_app, vscale_zeros, vscale_cons.
    rewrite vsub_app by (rewrite length_zeros; exact Hpre).
    rewrite vsub_cons. rewrite <- Hpre, vsub_zeros_r.
    rewrite <- app_assoc. cbn [app]. do 2 f_equal. ring.
Qed.

Lemma spans_step (done todo rest : list arow) (pv : arow) :
  Forall (fun r => length (snd r) = p) (done ++ todo) ->
  Permutation todo (pv :: rest) -> lead pv <> 0 ->
  spans p (map snd (done ++ todo)) ->
  spans p (map snd ((map (eliminate (normalize pv)) done ++ [normalize pv])
                    ++ map (eliminate (normalize pv)) rest)).
Proof.
  intros Hlen Hperm Hc Hs w D1 D2 H1 H2 L1 L2 H.
  apply (Hs w D1 D2 H1 H2 L1 L2).
  assert (Hpv : vecmat w (snd pv) D1 = vecmat w (snd pv) D2).
  { assert (E : snd pv = vscale (lead pv) (snd (normalize pv))).
    { unfold normalize. cbn [snd]. rewrite vscale_vscale.
      replace (lead pv * / lead pv) with 1 by now field.
      now rewrite vscale_1. }
    rewrite E, !vecmat_vscale. f_equal. apply H.
    apply in_map, in_or_app. left. apply in_or_app. right. now left. }
  assert (Hlpv : length (snd pv) = p).
  { rewrite Forall_forall in Hlen. apply Hlen, in_or_app. right.
    eapply Permutation_in; [symmetry; exact Hperm | now left]. }
  assert (Hel : forall r, In r (done ++ rest) ->
                          In (eliminate (normalize pv) r)
                             ((map (eliminate (normalize pv)) done ++ [normalize pv])
                              ++ map (eliminate (normalize pv)) rest)).
  { intros r Hr. apply in_app_or in Hr as [Hr | Hr].
    - apply in_or_app. left. apply in_or_app. left. now apply in_map.
    - apply in_or_app. right. now apply in_map. }
  intros n Hn. apply in_map_iff in Hn as (r & <- & Hr).
  assert (Hr' : r = pv \/ In r (done ++ rest)).
  { apply in_app_or in Hr as [Hr | Hr].
    - right. apply in_or_app. now left.
    - apply (Permutation_in _ Hperm) in Hr as [Hr | Hr]; [now left|].
      right. apply in_or_app. now right. }
  destruct Hr' as [-> | Hr']; [exact Hpv|].
  assert (Hlr : length (snd r) = p)
    by (rewrite Forall_forall in Hlen; now apply Hlen).
  assert (E : snd r = vadd (snd (eliminate (normalize pv) r))
                           (vscale (lead r) (snd (normalize pv)))).
  { unfold eliminate. cbn [snd]. symmetry. apply vadd_vsub_cancel.
    unfold normalize. cbn [snd]. rewrite !length_vscale. congruence. }
  rewrite E.
  assert (Hl2 : length (snd (eliminate (normalize pv) r))
                = length (vscale (lead r) (snd (normalize pv)))).
  { unfold eliminate, normalize. cbn [snd].
    rewrite length_vsub, !length_vscale. lia. }
  rewrite !vecmat_vadd, !vecmat_vscale by assumption.
  f_equal; [|f_equal].
  - apply H, in_map, Hel, Hr'.
  - apply H, in_map, in_or_app. left. apply in_or_app. right. now left.
Qed.

End Elimination.

(** *** More products *)

Lemma dot_nil_r (u : vec) : dot u [] = 0.
Proof. destruct u; reflexivity. Qed.

Lemma dot_zeros_l (n : nat) (v : vec) : dot (zeros n) v = 0.
Proof.
  revert v; induction n as [|n IH]; intros [|y v]; try reflexivity.
  cbn [zeros repeat]. rewrite dot_cons. fold (zeros n). rewrite IH. ring.
Qed.

Lemma dot_zeros_r (u : vec) (n : nat) : dot u (zeros n) = 0.
Proof.
  revert n; induction u as [|x u IH]; intros [|n]; try reflexivity.
  cbn [zeros repeat]. rewrite dot_cons. fold (zeros n). rewrite IH. ring.
Qed.

Lemma dot_app (u1 v1 u2 v2 : vec) :
  length u1 = length v1 ->
  dot (u1 ++ u2) (v1 ++ v2) = dot u1 v1 + dot u2 v2.
Proof.
  intros H. revert u1 v1 H. apply (vec_ind2 (fun u1 v1 => _)).
  - cbn [app]. change (dot [] []) with 0. ring.
  - intros x y u v _ IH. cbn [app]. rewrite !dot_cons, IH. ring.
Qed.

Lemma dot_vscale_l (c : Qc) (u v : vec) : dot (vscale c u) v = c * dot u v.
Proof.
  revert v; induction u as [|x u IH]; intros [|y v];
    try (change (dot _ _) with 0; ring).
  rewrite vscale_cons, !dot_cons, IH. ring.
Qed.

Lemma dot_vadd_l (u1 u2 v : vec) :
  length u1 = length u2 ->
  dot (vadd u1 u2) v = dot u1 v + dot u2 v.
Proof.
  intros H. revert v. revert u1 u2 H.
  apply (vec_ind2 (fun u1 u2 => forall v, _)).
  - intros v. change (dot _ v) with 0. ring.
  - intros x y u1 u2 _ IH [|z v].
    + rewrite !dot_nil_r. ring.
    + rewrite vadd_cons, !dot_cons, IH. ring.
Qed.

Lemma dot_unit (x : vec) (i : nat) :
  (i < length x)%nat -> dot (unit_vec (length x) i) x = nth i x 0.
Proof.
  revert i; induction x as [|y x IH]; intros i Hi; [inversion Hi|].
  cbn [length] in *. destruct i as [|i]; cbn [unit_vec nth]; rewrite dot_cons.
  - rewrite dot_zeros_l. ring.
  - rewrite IH by lia. ring.
Qed.

(** [(v a) . x = v . (a x)] *)
Lemma dot_vecmat (w : nat) (a : mat) (x : vec) :
  wf2 w a -> length x = w ->
  forall v, dot (vecmat w v a) x = dot v (map (fun r => dot r x) a).
Proof.
  intros Hwf Hx. induction Hwf as [|r a Hr Ha IH]; intros [|c v];
    cbn [vecmat map]; try apply dot_zeros_l.
  rewrite dot_vadd_l, dot_vscale_l, IH, dot_cons; [reflexivity|].
  now rewrite length_vscale, length_vecmat.
Qed.

(** [v (a b) = (v a) b] *)
Lemma vecmat_assoc (w q : nat) (a b : mat) :
  wf2 w a -> wf2 q b ->
  forall v, vecmat q v (matmul2 q a b) = vecmat q (vecmat w v a) b.
Proof.
  intros Ha Hb. induction Ha as [|r a Hr Ha IH]; intros [|c v];
    cbn [matmul2 map vecmat]; try (symmetry; now apply vecmat_zeros).
  fold (matmul2 q a b). rewrite IH.
  rewrite vecmat_vadd, vecmat_vscale; [reflexivity | exact Hb |].
  now rewrite length_vscale, length_vecmat.
Qed.

Lemma vecmat_cons0 (w : nat) (a : mat) (v : vec) :
  vecmat (S w) v (map (cons 0) a) = 0 :: vecmat w v a.
Proof.
  revert v; induction a as [|r a IH]; intros [|c v]; try reflexivity.
  cbn [map vecmat]. rewrite IH, vscale_cons, vadd_cons. f_equal. ring.
Qed.

Lemma identity_S (n : nat) :
  identity (S n) = (1 :: zeros n) :: map (cons 0) (identity n).
Proof.
  unfold identity. cbn [seq map]. f_equal.
  rewrite <- seq_shift, !map_map. reflexivity.
Qed.

Lemma vecmat_identity (v : vec) : vecmat (length v) v (identity (length v)) = v.
Proof.
  induction v as [|x v IH]; [reflexivity|].
  cbn [length]. rewrite identity_S. cbn [vecmat].
  rewrite vecmat_cons0, IH, vscale_cons, vscale_zeros, vadd_cons.
  rewrite vadd_zeros_l. f_equal. ring.
Qed.

Lemma wf2_matmul2 (q : nat) (a b : mat) : wf2 q b -> wf2 q (matmul2 q a b).
Proof.
  intros Hb. unfold wf2, matmul2. apply Forall_map, Forall_forall.
  intros r _. now apply length_vecmat.
Qed.

(** A column vector as a matrix of one column. *)
Lemma vecmat_column (y n : vec) :
  vecmat 1 n (map (fun c => [c]) y) = [dot n y].
Proof.
  revert n; induction y as [|c y IH]; intros [|d n]; try reflexivity.
  cbn [map vecmat]. rewrite IH, dot_cons. reflexivity.
Qed.

Lemma Forall2_nth (A B : Type) (P : A -> B -> Prop) (l1 : list A) (l2 : list B) :
  Forall2 P l1 l2 ->
  forall i d1 d2, (i < length l2)%nat -> P (nth i l1 d1) (nth i l2 d2).
Proof.
  induction 1 as [|x y l1 l2 Hxy H IH]; intros i d1 d2 Hi; [inversion Hi|].
  destruct i as [|i]; [exact Hxy|]. cbn [nth]. apply IH. cbn [length] in Hi. lia.
Qed.

(** *** Gauss-Jordan elimination computes the inverse *)

Section GaussJordan.

Variables (p : nat) (a : mat).
Hypothesis wf_a : wf2 p a.
Hypothesis len_a : length a = p.

Lemma gj_inv_lengths (done todo : list arow) :
  gj_inv p a done todo ->
  Forall (fun r => length (snd r) = p) (done ++ todo).
Proof.
  intros (_ & Hd & Ht & _). apply Forall_app. split.
  - clear Ht. induction Hd as [|pre r I d Hr _ IH]; constructor; auto.
    apply Hr.
  - eapply Forall_impl; [|exact Ht]. intros r Hr. apply Hr.
Qed.

Lemma gj_inv_init : gj_inv p a [] (combine a (identity p)).
Proof.
  assert (Hsnd : map snd (combine a (identity p)) = identity p).
  { generalize (identity p) (length_identity p). rewrite <- len_a.
    clear. induction a as [|r a' IH]; intros [|e I] H; try discriminate;
      [reflexivity|].
    cbn [combine map snd]. f_equal. apply IH. now injection H. }
  repeat split.
  - cbn [length]. now rewrite length_combine, length_identity, len_a, Nat.min_id.
  - constructor.
  - apply Forall_forall. intros [m n] Hin.
    destruct (In_nth _ _ (zeros p, zeros p) Hin) as (i & Hi & Hnth).
    rewrite length_combine, length_identity, len_a, Nat.min_id in Hi.
    rewrite combine_nth in Hnth by now rewrite length_identity.
    injection Hnth as <- <-. rewrite nth_identity by exact Hi.
    unfold row_ok. cbn [fst snd length zeros repeat app].
    assert (Hm : length (nth i a (zeros p)) = p).
    { unfold wf2 in wf_a. rewrite Forall_forall in wf_a.
      apply wf_a, nth_In. now rewrite len_a. }
    repeat split; [exact Hm | apply length_unit_vec |].
    rewrite <- len_a at 2. apply vecmat_unit; [exact wf_a | now rewrite len_a].
  - cbn [app]. rewrite Hsnd. apply spans_identity.
Qed.

Lemma gj_inv_step (done todo rest : list arow) (pv : arow) :
  gj_inv p a done todo -> find_pivot todo = Some (pv, rest) ->
  gj_inv p a (map (eliminate (normalize pv)) done ++ [normalize pv])
             (map (eliminate (normalize pv)) rest).
Proof.
  intros Hinv Hfp. pose proof (gj_inv_lengths Hinv) as Hlens.
  destruct Hinv as (Hlen & Hd & Ht & Hs).
  destruct (find_pivot_some _ Hfp) as [Hc Hperm].
  pose proof (Permutation_length Hperm) as Hpl. cbn [length] in Hpl.
  set (k := length done) in *.
  assert (Hk : (k < p)%nat) by lia.
  assert (Ht' : Forall (row_ok p a (zeros k)) (pv :: rest))
    by (eapply Permutation_Forall; eassumption).
  inversion_clear Ht' as [|? ? Hpv Hrest].
  pose proof (row_ok_normalize Hk Hc Hpv) as Hpv'.
  assert (Hk' : length (map (eliminate (normalize pv)) done ++ [normalize pv]) = S k)
    by (rewrite length_app, length_map; cbn [length]; fold k; lia).
  repeat split.
  - rewrite Hk', length_map. lia.
  - rewrite Hk', identity_snoc. apply Forall2_app.
    + assert (HI : Forall (fun pre => length pre = k) (identity k))
        by apply wf2_identity.
      clearbody k. clear - Hd HI Hpv' Hk wf_a.
      induction Hd as [|pre r I d Hr _ IH]; cbn [map]; constructor.
      * inversion HI; subst. eapply row_ok_eliminate; eauto.
      * apply IH. now inversion HI.
    + constructor; [exact Hpv' | constructor].
  - rewrite Hk', zeros_snoc. apply Forall_map.
    eapply Forall_impl; [|exact Hrest]. intros r Hr.
    eapply row_ok_eliminate; eauto. apply length_zeros.
  - now apply spans_step with (todo := todo).
Qed.

Lemma gj_final (done : list arow) :
  gj_inv p a done [] ->
  length (map snd done) = p /\ wf2 p (map snd done)
  /\ matmul2 p (map snd done) a = identity p
  /\ spans p (map snd done).
Proof.
  intros (Hlen & Hd & _ & Hs). cbn [length] in Hlen.
  rewrite Nat.add_0_r in Hlen. rewrite app_nil_r in Hs. rewrite Hlen in Hd.
  repeat split; [now rewrite length_map | | | exact Hs].
  - apply Forall_map. clear - Hd. induction Hd as [|pre r I d Hr _ IH];
      constructor; auto. apply Hr.
  - unfold matmul2. rewrite map_map.
    assert (HI : Forall (fun pre => length pre = p) (identity p))
      by apply wf2_identity.
    clear - Hd HI. induction Hd as [|pre r I d Hr _ IH]; [reflexivity|].
    inversion HI as [|? ? Hpre HI']; subst. cbn [map]. f_equal; [|now apply IH].
    destruct Hr as (Hl & _ & Heq). rewrite Heq.
    destruct (fst r); [apply app_nil_r | cbn [length] in Hl; lia].
Qed.

Lemma gj_sound (fuel : nat) :
  forall (done todo : list arow) (b : mat),
    gj_inv p a done todo -> length todo = fuel ->
    gauss_jordan fuel done todo = Some b ->
    length b = p /\ wf2 p b /\ matmul2 p b a = identity p /\ spans p b.
Proof.
  induction fuel as [|f IH]; intros done todo b Hinv Hlen Hgj.
  - destruct todo; [|discriminate]. cbn [gauss_jordan] in Hgj.
    injection Hgj as <-. now apply gj_final.
  - cbn [gauss_jordan] in Hgj.
    destruct (find_pivot todo) as [[pv rest]|] eqn:Hfp; [|discriminate].
    apply (IH _ _ _ (gj_inv_step Hinv Hfp)); [|exact Hgj].
    destruct (find_pivot_some _ Hfp) as [_ Hperm].
    apply Permutation_length in Hperm. cbn [length] in Hperm.
    rewrite length_map. lia.
Qed.

(** A left inverse whose rows span is a right inverse too. *)
Lemma left_inverse_right (b : mat) :
  length b = p -> wf2 p b -> matmul2 p b a = identity p -> spans p b ->
  matmul2 p a b = identity p.
Proof.
  intros Hlb Hwb Hba Hs.
  apply (Hs p); [now apply wf2_matmul2 | apply wf2_identity
                | unfold matmul2; now rewrite length_map
                | apply length_identity |].
  intros n Hn.
  assert (Hln : length n = p)
    by (unfold wf2 in Hwb; rewrite Forall_forall in Hwb; auto).
  rewrite (vecmat_assoc wf_a Hwb).
  destruct (In_nth _ _ (zeros p) Hn) as (i & Hi & Hnth).
  assert (E : vecmat p n a = unit_vec p i).
  { rewrite <- Hnth.
    rewrite <- (map_nth (fun r => vecmat p r a) b (zeros p) i).
    change (map (fun r => vecmat p r a) b) with (matmul2 p b a).
    rewrite Hba. apply nth_identity. lia. }
  rewrite E. rewrite <- Hlb at 2. rewrite vecmat_unit by auto.
  rewrite Hnth, <- Hln. now rewrite vecmat_identity.
Qed.

Lemma left_inverse_injective (b : mat) :
  matmul2 p b a = identity p -> injective_on_vectors p a.
Proof.
  intros Hba x Hx Hax.
  assert (Hlb : length b = p).
  { apply (f_equal (@length _)) in Hba.
    unfold matmul2 in Hba. now rewrite length_map, length_identity in Hba. }
  assert (Hy : map (fun r => dot r x) a = zeros (length a)).
  { clear - Hax. induction Hax as [|r a' Hr _ IH]; [reflexivity|].
    cbn [map length zeros repeat]. now rewrite Hr, IH. }
  apply (nth_ext x (zeros p) 0 0); [now rewrite length_zeros|].
  intros i Hi. unfold zeros at 1. rewrite nth_repeat.
  rewrite <- dot_unit by exact Hi. rewrite Hx.
  rewrite <- (nth_identity (zeros p)) by lia.
  rewrite <- Hba. unfold matmul2.
  change (zeros p) with ((fun r => vecmat p r a) []) at 1.
  rewrite map_nth, dot_vecmat, Hy by auto. apply dot_zeros_r.
Qed.

Lemma no_pivot_kernel (done todo : list arow) :
  gj_inv p a done todo -> todo <> [] ->
  Forall (fun r => lead r = 0) todo ->
  ~ injective_on_vectors p a.
Proof.
  intros (Hlen & Hd & Ht & Hs) Hne Hlead Hinj.
  set (k := length done) in *.
  assert (Hk : (k < p)%nat) by (destruct todo; [contradiction | cbn [length] in Hlen; lia]).
  set (x := map lead done ++ - (1) :: zeros (p - k - 1)).
  assert (Hx : length x = p).
  { unfold x. rewrite length_app, length_map. cbn [length].
    rewrite length_zeros. fold k. lia. }
  (* every row of the reduced matrix is orthogonal to [x] *)
  assert (HA : forall r, In r (done ++ todo) -> dot (vecmat p (snd r) a) x = 0).
  { intros r Hr. apply in_app_or in Hr as [Hr | Hr].
    - destruct (In_nth _ _ ([], []) Hr) as (i & Hi & Hnth).
      pose proof (Forall2_nth Hd (zeros k) ([], []) Hi) as Hok.
      rewrite Hnth, nth_identity in Hok by exact Hi.
      destruct Hok as (Hl & _ & Heq). rewrite Heq.
      rewrite length_unit_vec in Hl.
      destruct (fst r) as [|c m] eqn:Hm; [cbn [length] in Hl; lia|].
      unfold x. rewrite dot_app by now rewrite length_unit_vec, length_map.
      rewrite dot_cons, dot_zeros_r.
      replace (unit_vec k i) with (unit_vec (length (map lead done)) i)
        by now rewrite length_map.
      rewrite dot_unit by now rewrite length_map.
      change 0 with (lead ([], [])) at 1. rewrite map_nth, Hnth.
      unfold lead. rewrite Hm. cbn [hd]. ring.
    - rewrite Forall_forall in Ht, Hlead.
      destruct (Ht r Hr) as (Hl & _ & Heq). rewrite Heq.
      rewrite length_zeros in Hl.
      pose proof (Hlead r Hr) as H0. unfold lead in H0.
      destruct (fst r) as [|c m]; [cbn [length] in Hl; lia|].
      cbn [hd] in H0. subst c.
      unfold x. rewrite dot_app by now rewrite length_zeros, length_map.
      rewrite dot_cons, dot_zeros_l, dot_zeros_r. ring. }
  (* so [a x] is orthogonal to every row of the right half, hence zero *)
  set (y := map (fun r => dot r x) a).
  assert (Hy : map (fun c => [c]) y = map (fun c => [c]) (zeros p)).
  { apply (Hs 1%nat).
    - apply Forall_map, Forall_forall. reflexivity.
    - apply Forall_map, Forall_forall. reflexivity.
    - unfold y. now rewrite !length_map.
    - now rewrite length_map, length_zeros.
    - intros n Hn. apply in_map_iff in Hn as (r & <- & Hr).
      rewrite !vecmat_column, dot_zeros_r. f_equal.
      unfold y. rewrite <- (@dot_vecmat p a x wf_a Hx). now apply HA. }
  apply (f_equal (map (hd 0))) in Hy. rewrite !map_map in Hy.
  cbn [hd] in Hy. rewrite !map_id in Hy.
  assert (Hax : Forall (fun r => dot r x = 0) a).
  { apply Forall_forall. intros r Hr.
    assert (Hin : In (dot r x) y) by (unfold y; now apply in_map with (f := fun r => dot r x)).
    rewrite Hy in Hin. now apply repeat_spec in Hin. }
  pose proof (Hinj x Hx Hax) as Hx0.
  apply (f_equal (fun v => nth k v 0)) in Hx0.
  unfold x in Hx0. rewrite app_nth2 in Hx0 by (rewrite length_map; fold k; lia).
  rewrite length_map in Hx0. fold k in Hx0. rewrite Nat.sub_diag in Hx0.
  cbn [nth] in Hx0. unfold zeros in Hx0. rewrite nth_repeat in Hx0.
  discriminate Hx0.
Qed.

Lemma gj_complete (fuel : nat) :
  injective_on_vectors p a ->
  forall done todo : list arow,
    gj_inv p a done todo -> length todo = fuel ->
    gauss_jordan fuel done todo <> None.
Proof.
  intros Hinj. induction fuel as [|f IH]; intros done todo Hinv Hlen.
  - destruct todo; [discriminate | discriminate].
  - cbn [gauss_jordan].
    destruct (find_pivot todo) as [[pv rest]|] eqn:Hfp.
    + apply IH; [now apply gj_inv_step with (todo := todo)|].
      destruct (find_pivot_some _ Hfp) as [_ Hperm].
      apply Permutation_length in Hperm. cbn [length] in Hperm.
      rewrite length_map. lia.
    + exfalso. apply (no_pivot_kernel Hinv); auto.
      * intros ->. discriminate.
      * now apply find_pivot_none.
Qed.

(** [inverse] returns the two-sided inverse when there is one... *)
Lemma inverse_sound (b : mat) : inverse p a = Some b -> is_inverse p a b.
Proof.
  intros H. unfold inverse in H.
  destruct (@gj_sound p _ _ b gj_inv_init) as (Hl & Hw & Hba & Hs); auto.
  - now rewrite length_combine, length_identity, len_a, Nat.min_id.
  - repeat split; auto. now apply left_inverse_right.
Qed.

(** ... and exactly that one. *)
Lemma inverse_complete (b : mat) : is_inverse p a b -> inverse p a = Some b.
Proof.
  intros (Hl & Hw & Hba & Hab).
  destruct (inverse p a) as [b'|] eqn:E.
  - f_equal. destruct (inverse_sound E) as (Hl' & Hw' & Hba' & Hab').
    (* b' = (b a) b' = b (a b') = b *)
    transitivity (matmul2 p (matmul2 p b a) b').
    + rewrite Hba. unfold matmul2.
      apply (nth_ext _ _ (zeros p) (vecmat p (zeros p) b'));
        [now rewrite length_map, length_identity|].
      intros i Hi.
      rewrite (map_nth (fun r => vecmat p r b')), nth_identity by lia.
      replace (unit_vec p i) with (unit_vec (length b') i) by now rewrite Hl'.
      rewrite vecmat_unit by (auto; lia). reflexivity.
    + unfold matmul2 at 1 2. rewrite map_map.
      rewrite <- (map_id b) at 2. apply map_ext_in. intros n Hn.
      rewrite <- (vecmat_assoc wf_a Hw'). fold (matmul2 p a b'). rewrite Hab'.
      assert (Hln : length n = p)
        by (unfold wf2 in Hw; rewrite Forall_forall in Hw; auto).
      rewrite <- Hln. apply vecmat_identity.
  - exfalso. unfold inverse in E.
    apply (@gj_complete p (left_inverse_injective b Hba) _ _ gj_inv_init); auto.
    now rewrite length_combine, length_identity, len_a, Nat.min_id.
Qed.

End GaussJordan.

End LinearAlgebra.

(** * Properties of [TwoSampleT2Test] *)

Section HotellingProperties.

Import Numpy Hotelling.
Open Scope Qc_scope.

Lemma QcZ_neq_0 (z : Z) : z <> 0%Z -> QcZ z <> 0.
Proof.
  intros Hz H. apply Hz. unfold QcZ in H.
  apply (f_equal this) in H. cbn [this Q2Qc] in H.
  assert (E : (inject_Z z == 0)%Q).
  { rewrite <- (Qred_correct (inject_Z z)), H. reflexivity. }
  unfold Qeq in E. cbn in E. lia.
Qed.


Lemma fdiv_ok (x : Qc) (d : Z) : d <> 0%Z -> fdiv x d = Ret (x / QcZ d).
Proof. intros Hd. unfold fdiv. now apply Z.eqb_neq in Hd as ->. Qed.

Lemma mapM_ret (A B : Type) (f : A -> outcome B) (g : A -> B) (l : list A) :
  (forall x, In x l -> f x = Ret (g x)) -> mapM f l = Ret (map g l).
Proof.
  induction l as [|x l IH]; intros H; [reflexivity|].
  cbn [mapM map]. rewrite (H x (or_introl eq_refl)). cbn [bind].
  rewrite IH by (intros y Hy; apply H; now right). reflexivity.
Qed.

Lemma length_columns (c : nat) (rows : list (list Qc)) : length (columns c rows) = c.
Proof.
  unfold columns. now rewrite length_map, length_seq.
Qed.

(** *** Shapes through the arithmetic *)

Lemma stretch_id (A : Type) (k : nat) (l : list A) : length l = k -> stretch k l = l.
Proof.
  intros H. destruct l as [|x [|y l]]; try reflexivity.
  cbn [length] in H. subst k. reflexivity.
Qed.

Lemma binop_vec (f : Qc -> Qc -> Qc) (u v : list Qc) :
  binop f (Arr1 u) (Arr1 v)
  = match bc_len (length u) (length v) with
    | Some c => Ret (Arr1 (map (fun q => f (fst q) (snd q))
                               (combine (stretch c u) (stretch c v))))
    | None => Raise ValueError
    end.
Proof.
  unfold binop. cbn [view2 ndim]. change (bc_len 1 1) with (Some 1%nat).
  destruct (bc_len (length u) (length v)); reflexivity.
Qed.

Lemma bc_len_same (n : nat) : bc_len n n = Some n.
Proof. unfold bc_len. now rewrite Nat.eqb_refl. Qed.

Lemma bc_len_mismatch (n m : nat) :
  n <> m -> n <> 1%nat -> m <> 1%nat -> bc_len n m = None.
Proof.
  intros H H1 H2. unfold bc_len.
  apply Nat.eqb_neq in H as ->. apply Nat.eqb_neq in H1 as ->.
  now apply Nat.eqb_neq in H2 as ->.
Qed.

Lemma binop_vec_same (f : Qc -> Qc -> Qc) (u v : list Qc) :
  length u = length v ->
  binop f (Arr1 u) (Arr1 v)
  = Ret (Arr1 (map (fun q => f (fst q) (snd q)) (combine u v))).
Proof.
  intros H. rewrite binop_vec, <- H, bc_len_same.
  now rewrite !stretch_id by auto.
Qed.

Lemma binop_scalar (f : Qc -> Qc -> Qc) (x y : Qc) :
  binop f (Arr0 x) (Arr0 y) = Ret (Arr0 (f x y)).
Proof. reflexivity. Qed.

Lemma binop_mat_same (f : Qc -> Qc -> Qc) (c : nat) (M1 M2 : list (list Qc)) :
  wf2 c M1 -> wf2 c M2 -> length M1 = length M2 ->
  binop f (Arr2 c M1) (Arr2 c M2)
  = Ret (Arr2 c (map (fun p => map (fun q => f (fst q) (snd q))
                                   (combine (fst p) (snd p)))
                     (combine M1 M2))).
Proof.
  intros H1 H2 HL. unfold binop. cbn [view2 ndim Nat.max].
  rewrite <- HL, !bc_len_same, !stretch_id by auto.
  cbn [unview]. do 2 f_equal. apply map_ext_in. intros [r1 r2] Hin.
  cbn [fst snd]. unfold wf2 in H1, H2. rewrite Forall_forall in H1, H2.
  rewrite !stretch_id; [reflexivity | |].
  - apply H2. eapply in_combine_r; eassumption.
  - apply H1. eapply in_combine_l; eassumption.
Qed.

Lemma div_int_mat (c : nat) (M : list (list Qc)) (d : Z) :
  d <> 0%Z ->
  div_int (Arr2 c M) d = Ret (Arr2 c (map (map (fun x => x / QcZ d)) M)).
Proof.
  intros Hd. unfold div_int. cbn [mapM_array].
  erewrite mapM_ret; [reflexivity|].
  intros r _. apply mapM_ret. intros x _. now apply fdiv_ok.
Qed.

Lemma div_int_scalar (x : Qc) (d : Z) :
  d <> 0%Z -> div_int (Arr0 x) d = Ret (Arr0 (x / QcZ d)).
Proof.
  intros Hd. unfold div_int. cbn [mapM_array]. now rewrite fdiv_ok.
Qed.

(** *** The mean and the covariance of a sample *)

Lemma mean_axis0_value (c : nat) (rows : list (list Qc)) :
  rows <> [] -> mean_axis0 c rows = Ret (Arr1 (mean_vec c rows)).
Proof.
  intros Hr. unfold mean_axis0, mean_vec. erewrite mapM_ret; [reflexivity|].
  intros col _. apply fdiv_ok. destruct rows; [contradiction | cbn [length]; lia].
Qed.

Lemma length_mean_vec (c : nat) (rows : list (list Qc)) : length (mean_vec c rows) = c.
Proof. unfold mean_vec. now rewrite length_map, length_columns. Qed.

Lemma cov_value (c : nat) (rows : list (list Qc)) :
  (2 <= length rows)%nat ->
  cov c rows = Ret (squeeze c (cov_mat c rows)).
Proof.
  intros Hn. unfold cov.
  destruct c as [|c]; [reflexivity|].
  destruct (columns (S c) rows) as [|col cols] eqn:HX.
  { pose proof (length_columns (S c) rows) as H. rewrite HX in H. discriminate. }
  rewrite <- HX.
  erewrite mapM_ret with (g := fun v => vsum v / QcZ (Z.of_nat (length rows)));
    [|intros v _; apply fdiv_ok; lia].
  cbn [bind].
  replace (Z.of_nat (length rows) - 1 <=? 0)%Z with false
    by (symmetry; apply Z.leb_gt; lia).
  rewrite fdiv_ok by lia. cbn [bind]. reflexivity.
Qed.

Lemma cov_mat_shape (c : nat) (rows : list (list Qc)) :
  wf2 c (cov_mat c rows) /\ length (cov_mat c rows) = c.
Proof.
  assert (HL : length (combine (columns c rows) (mean_vec c rows)) = c)
    by now rewrite length_combine, length_columns, length_mean_vec, Nat.min_id.
  unfold cov_mat. split.
  - apply Forall_map, Forall_map, Forall_forall. intros u _.
    now rewrite !length_map.
  - now rewrite !length_map.
Qed.

Lemma squeeze_cases (p : nat) (M : list (list Qc)) :
  wf2 p M -> length M = p ->
  (p = 1%nat /\ exists x, M = [[x]]) \/ (p <> 1%nat /\ squeeze p M = Arr2 p M).
Proof.
  intros Hw Hl. destruct (Nat.eq_dec p 1) as [-> | Hp].
  - left. split; [reflexivity|].
    destruct M as [|r [|r' M]]; try discriminate.
    inversion Hw as [|? ? Hr _]; subst.
    destruct r as [|x [|y r]]; try discriminate. now exists x.
  - right. split; [exact Hp|].
    unfold squeeze. destruct M as [|[|x [|y r]] [|r' M]]; try reflexivity.
    cbn [length] in Hl. congruence.
Qed.

Lemma pooled_mat_shape (nx ny : Z) (p : nat) (M1 M2 : list (list Qc)) :
  wf2 p M1 -> wf2 p M2 -> length M1 = p -> length M2 = p ->
  wf2 p (pooled_mat nx ny M1 M2) /\ length (pooled_mat nx ny M1 M2) = p.
Proof.
  intros W1 W2 L1 L2. unfold pooled_mat. split.
  - apply Forall_map, Forall_map, Forall_forall. intros [r1 r2] Hin.
    cbn [fst snd]. rewrite length_map, length_vadd.
    apply in_combine_l in Hin as H1. apply in_combine_r in Hin as H2.
    apply in_map_iff in H1 as (r1' & <- & H1).
    apply in_map_iff in H2 as (r2' & <- & H2).
    unfold wf2 in W1, W2. rewrite Forall_forall in W1, W2.
    rewrite !length_map, (W1 _ H1), (W2 _ H2). apply Nat.min_id.
  - rewrite !length_map, length_combine, !length_map, L1, L2. apply Nat.min_id.
Qed.

(** The pooling step on two covariance arrays of one shape. *)
Lemma pool_value (nx ny : Z) (p : nat) (M1 M2 : list (list Qc)) :
  wf2 p M1 -> wf2 p M2 -> length M1 = p -> length M2 = p ->
  pool_divisor nx ny <> 0%Z ->
  (S <- binop Qcplus (scale (QcZ (nx - 1)) (squeeze p M1))
                     (scale (QcZ (ny - 1)) (squeeze p M2)) ;;
   div_int S (pool_divisor nx ny))%py
  = Ret (squeeze p (pooled_mat nx ny M1 M2)).
Proof.
  intros W1 W2 L1 L2 Hd.
  destruct (squeeze_cases W1 L1) as [(-> & x & ->) | (Hp & E1)].
  - destruct (squeeze_cases W2 L2) as [(_ & y & ->) | (Hp & _)];
      [|contradiction].
    cbn [squeeze scale astype]. rewrite binop_scalar. cbn [bind].
    rewrite div_int_scalar by exact Hd. reflexivity.
  - destruct (squeeze_cases W2 L2) as [(-> & _) | (_ & E2)]; [contradiction|].
    destruct (pooled_mat_shape nx ny W1 W2 L1 L2) as [W3 L3].
    destruct (squeeze_cases W3 L3) as [(-> & _) | (_ & E3)]; [contradiction|].
    rewrite E1, E2, E3. cbn [scale astype].
    rewrite binop_mat_same.
    + cbn [bind]. rewrite div_int_mat by exact Hd. reflexivity.
    + apply Forall_map. eapply Forall_impl; [|exact W1].
      intros r Hr. now rewrite length_map.
    + apply Forall_map. eapply Forall_impl; [|exact W2].
      intros r Hr. now rewrite length_map.
    + rewrite !length_map. congruence.
Qed.

(** Lines 6 to 11 on two samples of [p] features with at least two rows
    each. *)
Lemma pooling_value (p : nat) (RX RY : list (list Qc)) :
  (2 <= length RX)%nat -> (2 <= length RY)%nat ->
  pooling (Arr2 p RX) (Arr2 p RY)
  = Ret (Z.of_nat (length RX), Z.of_nat (length RY), Z.of_nat p,
         Arr1 (vsub (mean_vec p RX) (mean_vec p RY)),
         squeeze p (pooled_mat (Z.of_nat (length RX)) (Z.of_nat (length RY))
                               (cov_mat p RX) (cov_mat p RY))).
Proof.
  intros HX HY. unfold pooling. cbn [shape2 bind np_mean np_cov].
  rewrite !mean_axis0_value by (intros ->; cbn [length] in *; lia).
  cbn [bind].
  rewrite binop_vec_same by now rewrite !length_mean_vec.
  cbn [bind]. rewrite !cov_value by assumption. cbn [bind].
  pose proof (@pool_value (Z.of_nat (length RX)) (Z.of_nat (length RY)) p
                (cov_mat p RX) (cov_mat p RY)) as H.
  destruct (cov_mat_shape p RX) as [W1 L1].
  destruct (cov_mat_shape p RY) as [W2 L2].
  specialize (H W1 W2 L1 L2).
  assert (Hd : pool_divisor (Z.of_nat (length RX)) (Z.of_nat (length RY)) <> 0%Z)
    by (unfold pool_divisor; lia).
  specialize (H Hd).
  destruct (binop Qcplus _ _) as [S | e | ]; cbn [bind] in H |- *;
    try discriminate.
  rewrite H. reflexivity.
Qed.

(** *** The three ways the test ends on well-formed samples *)

Section Endings.

Variable F_cdf : Z -> Z -> Qc -> Qc.
Variables (p : nat) (RX RY : list (list Qc)).
Hypothesis rows_X : (2 <= length RX)%nat.
Hypothesis rows_Y : (2 <= length RY)%nat.

Let nx := Z.of_nat (length RX).
Let ny := Z.of_nat (length RY).
Let delta := vsub (mean_vec p RX) (mean_vec p RY).
Let S_pooled := pooled_mat nx ny (cov_mat p RX) (cov_mat p RY).

Lemma S_pooled_shape : wf2 p S_pooled /\ length S_pooled = p.
Proof.
  destruct (cov_mat_shape p RX) as [W1 L1].
  destruct (cov_mat_shape p RY) as [W2 L2].
  now apply pooled_mat_shape.
Qed.

Lemma int_div_ok : int_div (nx * ny) (t2_divisor nx ny)
                   = Ret (QcZ (nx * ny) / QcZ (t2_divisor nx ny)).
Proof.
  unfold int_div, t2_divisor.
  replace (nx + ny =? 0)%Z with false; [reflexivity|].
  symmetry. apply Z.eqb_neq. unfold nx, ny. lia.
Qed.

(** One feature: the covariance is a number, which [inv] refuses. *)
Lemma one_feature :
  p = 1%nat ->
  TwoSampleT2Test F_cdf (Arr2 p RX) (Arr2 p RY)
  = Raise (LinAlgError NotTwoDimensional).
Proof.
  intros Hp. unfold TwoSampleT2Test.
  rewrite pooling_value by assumption. cbn [bind].
  fold nx ny. rewrite int_div_ok. cbn [bind]. fold S_pooled.
  destruct S_pooled_shape as [W L].
  destruct (squeeze_cases W L) as [(_ & x & ->) | (Hp' & _)]; [|contradiction].
  subst p. reflexivity.
Qed.

(** Several features and a singular pooled covariance. *)
Lemma singular_pooled :
  p <> 1%nat -> inverse p S_pooled = None ->
  TwoSampleT2Test F_cdf (Arr2 p RX) (Arr2 p RY)
  = Raise (LinAlgError SingularMatrix).
Proof.
  intros Hp Hinv. unfold TwoSampleT2Test.
  rewrite pooling_value by assumption. cbn [bind].
  fold nx ny. rewrite int_div_ok. cbn [bind]. fold S_pooled.
  destruct S_pooled_shape as [W L].
  destruct (squeeze_cases W L) as [(-> & _) | (_ & ->)]; [contradiction|].
  cbn [linalg_inv]. rewrite L, Nat.eqb_refl, Hinv. reflexivity.
Qed.

(** Several features and an invertible pooled covariance: all that is
    left is the distribution function. *)
Lemma regular_pooled_cdf (B : list (list Qc)) :
  (2 <= p)%nat -> inverse p S_pooled = Some B ->
  TwoSampleT2Test F_cdf (Arr2 p RX) (Arr2 p RY)
  = (let s := t2_statistic nx ny p delta B in
     let df2 := (nx + ny - Z.of_nat p - 1)%Z in
     y <- cdf F_cdf (Z.of_nat p) df2 s ;;
     Ret {| printed := (Arr0 s, (Z.of_nat p, df2), Arr0 (1 - y));
            returned := (Arr0 s, Arr0 (1 - y)) |})%py.
Proof.
  intros Hp Hinv. unfold TwoSampleT2Test.
  rewrite pooling_value by assumption. cbn [bind].
  fold nx ny. rewrite int_div_ok. cbn [bind]. fold S_pooled delta.
  destruct S_pooled_shape as [W L].
  destruct (squeeze_cases W L) as [(-> & _) | (_ & ->)]; [lia|].
  cbn [linalg_inv]. rewrite L, Nat.eqb_refl, Hinv. cbn [bind transpose].
  destruct (inverse_sound W L Hinv) as (LB & WB & _ & _).
  assert (Ld : length delta = p).
  { unfold delta. rewrite length_vsub, !length_mean_vec. apply Nat.min_id. }
  cbn [matmul]. rewrite Ld, LB, Nat.eqb_refl. cbn [bind matmul].
  rewrite (length_vecmat WB), Ld, Nat.eqb_refl. cbn [bind scale astype].
  rewrite div_int_scalar by (unfold F_divisor, nx, ny; nia).
  cbn [bind mapM_array]. unfold t2_statistic.
  destruct (cdf F_cdf _ _ _); reflexivity.
Qed.

Lemma regular_pooled (B : list (list Qc)) :
  (2 <= p)%nat -> (Z.of_nat p < nx + ny - 1)%Z ->
  inverse p S_pooled = Some B ->
  TwoSampleT2Test F_cdf (Arr2 p RX) (Arr2 p RY)
  = Ret (result_of F_cdf nx ny p (t2_statistic nx ny p delta B)).
Proof.
  intros Hp Hdf Hinv. rewrite (regular_pooled_cdf Hp Hinv). unfold cdf.
  replace ((0 <? Z.of_nat p)%Z && (0 <? nx + ny - Z.of_nat p - 1)%Z) with true.
  - reflexivity.
  - symmetry. apply andb_true_iff. split; apply Z.ltb_lt; lia.
Qed.

End Endings.

(** *** Too few rows: [nan] before anything can be raised *)

Lemma mean_no_row (c : nat) : (1 <= c)%nat -> mean_axis0 c [] = NonFinite.
Proof.
  intros Hc. destruct c as [|c]; [lia|]. reflexivity.
Qed.

Lemma cov_few_rows (c : nat) (rows : list (list Qc)) :
  (1 <= c)%nat -> (length rows < 2)%nat -> cov c rows = NonFinite.
Proof.
  intros Hc Hn. destruct c as [|c]; [lia|].
  destruct rows as [|r [|r' rows]]; [reflexivity | | cbn [length] in Hn; lia].
  unfold cov.
  destruct (columns (S c) [r]) as [|col cols] eqn:HX.
  { pose proof (length_columns (S c) [r]) as H. rewrite HX in H. discriminate. }
  rewrite <- HX.
  erewrite mapM_ret with (g := fun v => vsum v / QcZ 1);
    [|intros v _; now apply fdiv_ok].
  reflexivity.
Qed.

Lemma pooling_few_rows (p : nat) (RX RY : list (list Qc)) :
  (1 <= p)%nat -> (length RX < 2)%nat \/ (length RY < 2)%nat ->
  pooling (Arr2 p RX) (Arr2 p RY) = NonFinite.
Proof.
  intros Hp Hn. unfold pooling. cbn [shape2 bind np_mean np_cov].
  destruct RX as [|rx RX]; [now rewrite mean_no_row|].
  rewrite (@mean_axis0_value p (rx :: RX)) by discriminate. cbn [bind].
  destruct RY as [|ry RY]; [now rewrite mean_no_row|].
  rewrite (@mean_axis0_value p (ry :: RY)) by discriminate. cbn [bind].
  rewrite binop_vec_same by now rewrite !length_mean_vec.
  cbn [bind].
  destruct (Nat.lt_ge_cases (length (rx :: RX)) 2) as [HX | HX].
  - now rewrite (cov_few_rows (rx :: RX) Hp HX).
  - rewrite (@cov_value p (rx :: RX) HX). cbn [bind].
    destruct Hn as [Hn | Hn]; [lia|].
    now rewrite (cov_few_rows (ry :: RY) Hp Hn).
Qed.

(** No feature at all. *)
Lemma pooling_no_feature (RX RY : list (list Qc)) :
  pooling (Arr2 0 RX) (Arr2 0 RY)
  = Ret (Z.of_nat (length RX), Z.of_nat (length RY), 0%Z, Arr1 [], Arr2 0 []).
Proof. reflexivity. Qed.

(** *** What a returned result tells about the inputs *)



(** *** Swapping the two samples *)

Lemma map_combine_comm (A B : Type) (f : A -> A -> B) (l1 l2 : list A) :
  (forall x y, f x y = f y x) ->
  map (fun q => f (fst q) (snd q)) (combine l1 l2)
  = map (fun q => f (fst q) (snd q)) (combine l2 l1).
Proof.
  intros Hf. revert l2; induction l1 as [|x l1 IH]; intros [|y l2];
    try reflexivity.
  cbn [combine map fst snd]. now rewrite Hf, IH.
Qed.

Lemma vadd_comm (u v : list Qc) : vadd u v = vadd v u.
Proof. apply map_combine_comm. intros x y. ring. Qed.

Lemma dot_comm (u v : list Qc) : dot u v = dot v u.
Proof.
  unfold dot. f_equal. apply map_combine_comm. intros x y. ring.
Qed.

Lemma vsub_swap (u v : list Qc) : vsub v u = vscale (- (1)) (vsub u v).
Proof.
  revert v; induction u as [|x u IH]; intros [|y v]; try reflexivity.
  rewrite !vsub_cons, vscale_cons, IH. f_equal. ring.
Qed.

Lemma quadratic_form_even (p : nat) (d : list Qc) (B : list (list Qc)) :
  dot (vecmat p (vscale (- (1)) d) B) (vscale (- (1)) d) = dot (vecmat p d B) d.
Proof.
  rewrite vecmat_vscale, dot_vscale_l.
  rewrite (dot_comm _ (vscale _ d)), dot_vscale_l, (dot_comm d). ring.
Qed.

Lemma pooled_mat_comm (nx ny : Z) (Sx Sy : list (list Qc)) :
  pooled_mat ny nx Sy Sx = pooled_mat nx ny Sx Sy.
Proof.
  unfold pooled_mat, pool_divisor. rewrite (Z.add_comm ny nx). f_equal.
  apply (map_combine_comm vadd). apply vadd_comm.
Qed.

Lemma t2_statistic_swap (nx ny : Z) (p : nat) (mx my : list Qc) (B : list (list Qc)) :
  t2_statistic ny nx p (vsub my mx) B = t2_statistic nx ny p (vsub mx my) B.
Proof.
  unfold t2_statistic, t2_divisor, F_divisor.
  rewrite (vsub_swap mx my), quadratic_form_even.
  now rewrite (Z.add_comm ny nx), (Z.mul_comm ny nx).
Qed.

Lemma TwoSampleT2Test_swap (F_cdf : Z -> Z -> Qc -> Qc) (p : nat)
      (RX RY : list (list Qc)) :
  TwoSampleT2Test F_cdf (Arr2 p RY) (Arr2 p RX)
  = TwoSampleT2Test F_cdf (Arr2 p RX) (Arr2 p RY).
Proof.
  destruct p as [|p].
  { (* no feature *)
    unfold TwoSampleT2Test. rewrite !pooling_no_feature. cbn [bind].
    unfold t2_divisor, F_divisor.
    now rewrite (Z.add_comm (Z.of_nat (length RY))),
                (Z.mul_comm (Z.of_nat (length RY))). }
  assert (Hp : (1 <= S p)%nat) by lia.
  destruct (Nat.lt_ge_cases (length RX) 2) as [HX | HX].
  { unfold TwoSampleT2Test.
    now rewrite !pooling_few_rows by (auto; lia). }
  destruct (Nat.lt_ge_cases (length RY) 2) as [HY | HY].
  { unfold TwoSampleT2Test.
    now rewrite !pooling_few_rows by (auto; lia). }
  destruct (Nat.eq_dec (S p) 1) as [E | E].
  { now rewrite !one_feature by assumption. }
  set (nx := Z.of_nat (length RX)). set (ny := Z.of_nat (length RY)).
  destruct (inverse (S p) (pooled_mat nx ny (cov_mat (S p) RX) (cov_mat (S p) RY)))
    as [B|] eqn:Hinv.
  - rewrite (@regular_pooled_cdf F_cdf (S p) RX RY HX HY B) by (auto; lia).
    rewrite (@regular_pooled_cdf F_cdf (S p) RY RX HY HX B)
      by (try lia; fold nx ny; now rewrite pooled_mat_comm).
    fold nx ny. cbv zeta. rewrite t2_statistic_swap.
    now rewrite (Z.add_comm ny nx).
  - rewrite (@singular_pooled F_cdf (S p) RX RY HX HY) by auto.
    rewrite (@singular_pooled F_cdf (S p) RY RX HY HX); [reflexivity | exact E|].
    fold nx ny. now rewrite pooled_mat_comm.
Qed.

End HotellingProperties.

(** * The code against the specification's formulas *)

Section Refinement.

Import Numpy Hotelling.
Open Scope Qc_scope.

Lemma QcZ_add (a b : Z) : QcZ (a + b) = QcZ a + QcZ b.
Proof.
  apply Qc_is_canon. unfold QcZ, Qcplus, Q2Qc. cbn [this].
  rewrite !Qred_correct, inject_Z_plus. reflexivity.
Qed.

Lemma QcZ_mul (a b : Z) : QcZ (a * b) = QcZ a * QcZ b.
Proof.
  apply Qc_is_canon. unfold QcZ, Qcmult, Q2Qc. cbn [this].
  rewrite !Qred_correct, inject_Z_mult. reflexivity.
Qed.

Lemma QcZ_sub (a b : Z) : QcZ (a - b) = QcZ a - QcZ b.
Proof.
  apply Qc_is_canon. unfold QcZ, Qcminus, Qcplus, Qcopp, Q2Qc. cbn [this].
  rewrite !Qred_correct. unfold Z.sub.
  rewrite inject_Z_plus, inject_Z_opp. reflexivity.
Qed.

Lemma QcZ_1 : QcZ 1 = 1.
Proof. apply Qc_is_canon. reflexivity. Qed.

(** *** Sums over indices *)

Lemma map_nth_seq (A B : Type) (g : A -> B) (l : list A) (d : A) :
  map (fun i => g (nth i l d)) (seq 0 (length l)) = map g l.
Proof.
  rewrite <- (map_map (fun i => nth i l d) g). f_equal.
  induction l as [|x l IH]; [reflexivity|].
  cbn [length seq map nth]. f_equal.
  rewrite <- seq_shift, map_map. exact IH.
Qed.

Lemma combine_map_map (A B C : Type) (f : A -> B) (g : A -> C) (l : list A) :
  combine (map f l) (map g l) = map (fun x => (f x, g x)) l.
Proof. induction l as [|x l IH]; [reflexivity | cbn [map combine]; now rewrite IH]. Qed.

Lemma nth_map_seq (A : Type) (f : nat -> A) (n i : nat) (d : A) :
  (i < n)%nat -> nth i (map f (seq 0 n)) d = f i.
Proof.
  intros Hi. rewrite (nth_indep _ d (f 0%nat)) by now rewrite length_map, length_seq.
  rewrite (map_nth f (seq 0 n) 0%nat i), seq_nth; auto.
Qed.

Lemma entry_table (f : nat -> nat -> Qc) (p j k : nat) :
  (j < p)%nat -> (k < p)%nat ->
  Spec.entry (map (fun j => map (f j) (seq 0 p)) (seq 0 p)) j k = f j k.
Proof.
  intros Hj Hk. unfold Spec.entry. now rewrite !nth_map_seq.
Qed.

Lemma vsum_column (X : list (list Qc)) (j : nat) :
  vsum (column j X) = Spec.sum_over (length X) (fun i => Spec.entry X i j).
Proof.
  unfold Spec.sum_over, Spec.entry, column.
  now rewrite (map_nth_seq (fun r => nth j r 0) X []).
Qed.

Lemma dot_as_sum (u v : list Qc) :
  length u = length v ->
  dot u v = Spec.sum_over (length u) (fun i => nth i u 0 * nth i v 0).
Proof.
  intros H. unfold Spec.sum_over. revert u v H.
  apply (vec_ind2 (fun u v => _)); [reflexivity|].
  intros x y u v _ IH. rewrite dot_cons, IH.
  cbn [length seq map nth vsum fold_right]. f_equal.
  rewrite <- seq_shift, map_map. reflexivity.
Qed.

Lemma sum_over_ext (n : nat) (f g : nat -> Qc) :
  (forall i, (i < n)%nat -> f i = g i) -> Spec.sum_over n f = Spec.sum_over n g.
Proof.
  intros H. unfold Spec.sum_over. f_equal. apply map_ext_in.
  intros i Hi. apply in_seq in Hi. apply H. lia.
Qed.

Lemma sum_over_scale (n : nat) (c : Qc) (f : nat -> Qc) :
  c * Spec.sum_over n f = Spec.sum_over n (fun i => c * f i).
Proof.
  unfold Spec.sum_over. induction (seq 0 n) as [|i l IH]; cbn [map vsum fold_right].
  - ring.
  - fold (vsum (map f l)). fold (vsum (map (fun i => c * f i) l)).
    rewrite <- IH. ring.
Qed.

(** *** Means, covariances and the pooled covariance *)

Lemma mean_vec_spec (p : nat) (X : list (list Qc)) :
  mean_vec p X = map (Spec.col_mean X) (seq 0 p).
Proof.
  unfold mean_vec, columns. rewrite map_map. apply map_ext.
  intros j. unfold Spec.col_mean, Spec.n_obs. now rewrite vsum_column.
Qed.

Lemma vsub_map (A : Type) (f g : A -> Qc) (l : list A) :
  vsub (map f l) (map g l) = map (fun x => f x - g x) l.
Proof. unfold vsub. now rewrite combine_map_map, map_map. Qed.

Lemma vadd_map (A : Type) (f g : A -> Qc) (l : list A) :
  vadd (map f l) (map g l) = map (fun x => f x + g x) l.
Proof. unfold vadd. now rewrite combine_map_map, map_map. Qed.

Lemma dot_map (A : Type) (f g : A -> Qc) (l : list A) :
  dot (map f l) (map g l) = vsum (map (fun x => f x * g x) l).
Proof. unfold dot. now rewrite combine_map_map, map_map. Qed.

Lemma mean_difference_spec (p : nat) (X Y : list (list Qc)) :
  vsub (mean_vec p X) (mean_vec p Y) = Spec.mean_difference p X Y.
Proof. rewrite !mean_vec_spec. apply vsub_map. Qed.

Lemma cov_mat_spec (p : nat) (X : list (list Qc)) :
  cov_mat p X = Spec.sample_cov p X.
Proof.
  unfold cov_mat. rewrite mean_vec_spec. unfold columns.
  rewrite combine_map_map, !map_map. unfold Spec.sample_cov.
  apply map_ext. intros j. rewrite !map_map. apply map_ext. intros k.
  cbn [fst snd]. unfold column. rewrite !map_map, dot_map.
  rewrite <- (map_nth_seq (fun r => (nth j r 0 - Spec.col_mean X j)
                                    * (nth k r 0 - Spec.col_mean X k)) X []).
  fold (Spec.sum_over (length X)
          (fun i => (nth j (nth i X []) 0 - Spec.col_mean X j)
                    * (nth k (nth i X []) 0 - Spec.col_mean X k))).
  unfold Spec.n_obs. rewrite QcZ_sub, QcZ_1. unfold Spec.entry, Qcdiv. ring.
Qed.

Lemma sample_cov_shape (p : nat) (X : list (list Qc)) :
  wf2 p (Spec.sample_cov p X) /\ length (Spec.sample_cov p X) = p.
Proof. rewrite <- cov_mat_spec. apply cov_mat_shape. Qed.

Lemma pooled_cov_spec (p : nat) (X Y : list (list Qc)) :
  pooled_mat (Z.of_nat (length X)) (Z.of_nat (length Y))
             (cov_mat p X) (cov_mat p Y)
  = Spec.pooled_cov p X Y.
Proof.
  rewrite !cov_mat_spec. unfold pooled_mat, Spec.pooled_cov.
  set (sx := Spec.sample_cov p X). set (sy := Spec.sample_cov p Y).
  unfold Spec.sample_cov in sx, sy.
  assert (Hx : forall j k, (j < p)%nat -> (k < p)%nat ->
                           Spec.entry sx j k = nth k (nth j sx []) 0)
    by reflexivity.
  unfold sx at 1, sy at 1.
  rewrite !map_map, combine_map_map, !map_map.
  apply map_ext_in. intros j Hj. cbn [fst snd].
  rewrite !map_map, vadd_map, map_map.
  apply map_ext_in. intros k Hk.
  apply in_seq in Hj, Hk.
  unfold sx, sy. rewrite !entry_table by lia.
  unfold pool_divisor, Spec.n_obs.
  rewrite !QcZ_sub, QcZ_add, QcZ_1. reflexivity.
Qed.

(** *** The quadratic form and the statistic *)

Lemma quadratic_form_spec (p : nat) (d : list Qc) (B : list (list Qc)) :
  wf2 p B -> length B = p -> length d = p ->
  dot (vecmat p d B) d = Spec.quadratic_form p d B.
Proof.
  intros WB LB Ld. rewrite (@dot_vecmat p B d WB Ld).
  rewrite dot_as_sum by now rewrite length_map, LB.
  rewrite Ld. unfold Spec.quadratic_form. apply sum_over_ext.
  intros j Hj.
  rewrite (nth_indep (map (fun r => dot r d) B) 0 (dot [] d))
    by now rewrite length_map, LB.
  rewrite (map_nth (fun r => dot r d) B [] j).
  assert (Hr : length (nth j B []) = p).
  { unfold wf2 in WB. rewrite Forall_forall in WB. apply WB, nth_In. lia. }
  rewrite dot_as_sum by congruence. rewrite Hr, sum_over_scale.
  apply sum_over_ext. intros k _. unfold Spec.entry. ring.
Qed.

Lemma statistic_spec (p : nat) (X Y B : list (list Qc)) :
  wf2 p B -> length B = p ->
  t2_statistic (Z.of_nat (length X)) (Z.of_nat (length Y)) p
               (vsub (mean_vec p X) (mean_vec p Y)) B
  = Spec.F_statistic p X Y B.
Proof.
  intros WB LB. unfold t2_statistic, Spec.F_statistic, Spec.T2.
  rewrite mean_difference_spec.
  rewrite quadratic_form_spec;
    [ | exact WB | exact LB
      | unfold Spec.mean_difference; now rewrite length_map, length_seq ].
  unfold t2_divisor, F_divisor, Spec.n_obs.
  rewrite !QcZ_mul, !QcZ_sub, !QcZ_add, QcZ_1. unfold Qcdiv. ring.
Qed.

(** X1: for two or more features, more rows than features in each
    sample and an invertible pooled covariance, the code returns (and
    prints) the statistic and the p-value of the textbook formulas:
    per-column means, covariances with the [n - 1] divisor, pooled
    covariance, [T2], the F statistic and one minus the distribution
    function. *)
Theorem TwoSampleT2Test_refines_spec (F_cdf : Z -> Z -> Qc -> Qc)
    (p : nat) (X Y B : list (list Qc)) :
  wf2 p X -> wf2 p Y ->
  (2 <= p)%nat -> (p < length X)%nat -> (p < length Y)%nat ->
  is_inverse p (Spec.pooled_cov p X Y) B ->
  TwoSampleT2Test F_cdf (Arr2 p X) (Arr2 p Y)
  = Ret {| printed := (Arr0 (Spec.F_statistic p X Y B),
                       (Z.of_nat p,
                        Z.of_nat (length X) + Z.of_nat (length Y) - Z.of_nat p - 1)%Z,
                       Arr0 (Spec.p_value F_cdf p X Y B));
           returned := (Arr0 (Spec.F_statistic p X Y B),
                        Arr0 (Spec.p_value F_cdf p X Y B)) |}.
Proof.
  intros _ _ Hp HX HY HB.
  assert (Hinv : inverse p (pooled_mat (Z.of_nat (length X)) (Z.of_nat (length Y))
                                       (cov_mat p X) (cov_mat p Y)) = Some B).
  { rewrite pooled_cov_spec. apply inverse_complete; [| |exact HB].
    - rewrite <- pooled_cov_spec. apply S_pooled_shape.
    - rewrite <- pooled_cov_spec. apply S_pooled_shape. }
  rewrite (@regular_pooled F_cdf p X Y) with (B := B); try lia; [|exact Hinv].
  destruct HB as (LB & WB & _).
  rewrite statistic_spec by assumption. reflexivity.
Qed.

Lemma vsub_self (v : list Qc) : vsub v v = zeros (length v).
Proof.
  induction v as [|x v IH]; [reflexivity|].
  rewrite vsub_cons, IH. cbn [length zeros repeat]. f_equal. ring.
Qed.

Lemma pooled_mat_same (n : Z) (M : list (list Qc)) :
  (2 <= n)%Z -> pooled_mat n n M M = M.
Proof.
  intros Hn. unfold pooled_mat.
  rewrite combine_map_map, !map_map.
  transitivity (map (fun r : list Qc => r) M); [|apply map_id].
  apply map_ext. intros r. cbn [fst snd]. rewrite vadd_map, map_map.
  transitivity (map (fun x : Qc => x) r); [|apply map_id].
  apply map_ext. intros x.
  unfold pool_divisor. replace (n + n - 2)%Z with ((n - 1) + (n - 1))%Z by lia.
  rewrite QcZ_add. field.
  rewrite <- QcZ_add. apply QcZ_neq_0. lia.
Qed.

(** X2: a sample of two or more features whose covariance is invertible,
    tested against itself, gives the statistic 0 exactly, and the p-value
    1 when the distribution function is 0 at 0. *)
Theorem TwoSampleT2Test_same_sample (F_cdf : Z -> Z -> Qc -> Qc)
    (p : nat) (X B : list (list Qc)) :
  wf2 p X -> (2 <= p)%nat -> (p < length X)%nat ->
  is_inverse p (Spec.sample_cov p X) B ->
  let n := Z.of_nat (length X) in
  TwoSampleT2Test F_cdf (Arr2 p X) (Arr2 p X) = Ret (result_of F_cdf n n p 0)
  /\ (F_cdf (Z.of_nat p) (n + n - Z.of_nat p - 1)%Z 0 = 0 ->
      returned (result_of F_cdf n n p 0) = (Arr0 0, Arr0 1)).
Proof.
  intros _ Hp HX HB n. split.
  - assert (Hinv : inverse p (pooled_mat n n (cov_mat p X) (cov_mat p X)) = Some B).
    { rewrite pooled_mat_same by (unfold n; lia). rewrite cov_mat_spec.
      apply inverse_complete; [apply sample_cov_shape .. | exact HB]. }
    rewrite (@regular_pooled F_cdf p X X) with (B := B);
      try lia; [|exact Hinv].
    fold n. f_equal. f_equal. unfold t2_statistic.
    destruct HB as (LB & WB & _).
    replace (vsub (mean_vec p X) (mean_vec p X)) with (zeros p).
    + rewrite (vecmat_zeros WB), dot_zeros_l. unfold Qcdiv. ring.
    + now rewrite vsub_self, length_mean_vec.
  - intros H0. unfold result_of. cbn [returned]. rewrite H0.
    replace (1 - 0) with 1 by ring. reflexivity.
Qed.

End Refinement.

(** * The claims about [TwoSampleT2Test] *)

Section HotellingClaims.

Import Numpy Hotelling.
Open Scope Qc_scope.

(** C1 at one feature: for the samples [[1],[2],[4]] and
    [[0],[1],[2],[5]] (3 and 4 rows, one column, pooled covariance 56/15,
    not zero) the function does not return the statistic: [np.cov] gives
    numbers, not 1 by 1 matrices, and [np.linalg.inv] raises
    [LinAlgError] on the pooled number, whatever the distribution
    function. *)
Theorem TwoSampleT2Test_one_feature (F_cdf : Z -> Z -> Qc -> Qc) :
  (exists s, pooled_covariance one_a one_b = Ret (Arr0 s) /\ this s = (56 # 15)%Q)
  /\ TwoSampleT2Test F_cdf one_a one_b = Raise (LinAlgError NotTwoDimensional).
Proof.
  split.
  - eexists. split; [lazy; reflexivity | reflexivity].
  - apply one_feature; [cbn; lia | cbn; lia | reflexivity].
Qed.

(** C6 at one feature: the test of the sample [[1],[2],[4]] (variance
    7/3) against itself raises [LinAlgError] instead of returning the
    statistic 0 and the p-value 1. *)
Theorem TwoSampleT2Test_same_one_feature (F_cdf : Z -> Z -> Qc -> Qc) :
  (exists s, np_cov one_a = Ret (Arr0 s) /\ this s = (7 # 3)%Q)
  /\ TwoSampleT2Test F_cdf one_a one_a = Raise (LinAlgError NotTwoDimensional).
Proof.
  split.
  - eexists. split; [lazy; reflexivity | reflexivity].
  - apply one_feature; [cbn; lia | cbn; lia | reflexivity].
Qed.

(** C3, as the code has it: two samples with at least one row each whose
    numbers of columns differ, neither being 1, make the function fail
    with [ValueError] (the subtraction of the two mean vectors cannot be
    broadcast). *)
Theorem TwoSampleT2Test_shape_mismatch (F_cdf : Z -> Z -> Qc -> Qc)
    (cx cy : nat) (RX RY : list (list Qc)) :
  wf2 cx RX -> wf2 cy RY -> RX <> [] -> RY <> [] ->
  cx <> cy -> cx <> 1%nat -> cy <> 1%nat ->
  TwoSampleT2Test F_cdf (Arr2 cx RX) (Arr2 cy RY) = Raise ValueError.
Proof.
  intros _ _ HX HY Hc H1 H2. unfold TwoSampleT2Test, pooling.
  cbn [shape2 bind np_mean].
  rewrite !mean_axis0_value by assumption. cbn [bind].
  rewrite binop_vec, !length_mean_vec, bc_len_mismatch by assumption.
  reflexivity.
Qed.

Lemma TwoSampleT2Test_shape_mismatch_witness :
  TwoSampleT2Test F_cdf_2 two_a three_a = Raise ValueError.
Proof.
  apply TwoSampleT2Test_shape_mismatch;
    try (repeat constructor); try discriminate.
Defined.

(** C3 as stated fails: a sample of two columns against one of a single
    column is not refused; the column is broadcast and a statistic comes
    back. *)
Lemma TwoSampleT2Test_one_column_broadcast :
  exists r,
    TwoSampleT2Test F_cdf_2 two_a one_c = Ret r
    /\ astype this (fst (returned r)) = Arr0 (157 # 200)%Q
    /\ astype this (snd (returned r)) = Arr0 (200 # 357)%Q.
Proof. eexists. split; [lazy; reflexivity | split; reflexivity]. Qed.



(** The two failures the specification names: too few rows for three
    features ([n1 + n2 - 2 = 2 < 3]), and collinear features. *)
Lemma singular_samples :
  TwoSampleT2Test F_cdf_2 three_a three_b = Raise (LinAlgError SingularMatrix)
  /\ TwoSampleT2Test F_cdf_2 line_a line_b = Raise (LinAlgError SingularMatrix).
Proof. split; lazy; reflexivity. Qed.

(** C7: swapping two samples with the same number of columns changes
    nothing: the same statistic, p-value and printed text, or the same
    failure; the two-feature samples of this file show a run that returns. *)
Theorem TwoSampleT2Test_symmetric :
  (forall (F_cdf : Z -> Z -> Qc -> Qc) (p : nat) (RX RY : list (list Qc)),
      TwoSampleT2Test F_cdf (Arr2 p RY) (Arr2 p RX)
      = TwoSampleT2Test F_cdf (Arr2 p RX) (Arr2 p RY))
  /\ exists r, TwoSampleT2Test F_cdf_2 two_a two_b = Ret r
               /\ TwoSampleT2Test F_cdf_2 two_b two_a = Ret r
               /\ astype this (fst (returned r)) = Arr0 (37 # 1435)%Q.
Proof.
  split; [intros; apply TwoSampleT2Test_swap|].
  pose proof (TwoSampleT2Test_swap F_cdf_2 2 (of_ints [[1; 2]; [2; 1]; [4; 5]]%Z)
                (of_ints [[0; 0]; [1; 3]; [2; 1]; [5; 5]]%Z)) as E.
  fold two_a two_b in E. rewrite E.
  eexists. split; [lazy; reflexivity | split; reflexivity].
Qed.

(** C9: on samples of [p >= 1] columns with more than [p] rows each, the
    three divisors [nx+ny-2], [nx+ny] and [p*(nx+ny-2)] are positive, and
    the run ends with a result or with [LinAlgError]: no division by
    zero, neither as [ZeroDivisionError] nor as a floating-point [inf] or
    [nan]. *)
Theorem TwoSampleT2Test_divisors (F_cdf : Z -> Z -> Qc -> Qc)
    (p : nat) (RX RY : list (list Qc)) :
  wf2 p RX -> wf2 p RY ->
  (1 <= p)%nat -> (p < length RX)%nat -> (p < length RY)%nat ->
  let nx := Z.of_nat (length RX) in
  let ny := Z.of_nat (length RY) in
  (0 < pool_divisor nx ny /\ 0 < t2_divisor nx ny
   /\ 0 < F_divisor nx ny (Z.of_nat p))%Z
  /\ ((exists r, TwoSampleT2Test F_cdf (Arr2 p RX) (Arr2 p RY) = Ret r)
      \/ (exists e, TwoSampleT2Test F_cdf (Arr2 p RX) (Arr2 p RY)
                    = Raise (LinAlgError e))).
Proof.
  intros _ _ Hp HX HY nx ny. split.
  - unfold pool_divisor, t2_divisor, F_divisor, nx, ny. repeat split; nia.
  - destruct (Nat.eq_dec p 1) as [E | E].
    { right. eexists. apply one_feature; auto; lia. }
    destruct (inverse p (pooled_mat nx ny (cov_mat p RX) (cov_mat p RY)))
      as [B|] eqn:Hinv.
    + left. eexists. apply regular_pooled with (B := B); auto;
        fold nx ny; unfold nx, ny; lia.
    + right. eexists. apply singular_pooled; auto; lia.
Qed.

Lemma TwoSampleT2Test_divisors_witness :
  (0 < pool_divisor 3 4 /\ 0 < t2_divisor 3 4 /\ 0 < F_divisor 3 4 2)%Z
  /\ ((exists r, TwoSampleT2Test F_cdf_2 two_a two_b = Ret r)
      \/ (exists e, TwoSampleT2Test F_cdf_2 two_a two_b = Raise (LinAlgError e))).
Proof.
  apply (@TwoSampleT2Test_divisors F_cdf_2 2
           (of_ints [[1; 2]; [2; 1]; [4; 5]]%Z)
           (of_ints [[0; 0]; [1; 3]; [2; 1]; [5; 5]]%Z)).
  - repeat constructor.
  - repeat constructor.
  - lia.
  - cbn. lia.
  - cbn. lia.
Defined.



End HotellingClaims.

(** * Further properties of the two functions *)

Section Further.

Import LatexMatrix Numpy Hotelling.
Open Scope Qc_scope.

Lemma TwoSampleT2Test_refines_spec_witness :
  exists B,
    TwoSampleT2Test F_cdf_2 two_a two_b
    = Ret {| printed := (Arr0 (Spec.F_statistic 2 (of_ints [[1; 2]; [2; 1]; [4; 5]]%Z)
                                 (of_ints [[0; 0]; [1; 3]; [2; 1]; [5; 5]]%Z) B),
                         (2, 4)%Z,
                         Arr0 (Spec.p_value F_cdf_2 2 (of_ints [[1; 2]; [2; 1]; [4; 5]]%Z)
                                 (of_ints [[0; 0]; [1; 3]; [2; 1]; [5; 5]]%Z) B));
             returned := (Arr0 (Spec.F_statistic 2 (of_ints [[1; 2]; [2; 1]; [4; 5]]%Z)
                                  (of_ints [[0; 0]; [1; 3]; [2; 1]; [5; 5]]%Z) B),
                          Arr0 (Spec.p_value F_cdf_2 2 (of_ints [[1; 2]; [2; 1]; [4; 5]]%Z)
                                  (of_ints [[0; 0]; [1; 3]; [2; 1]; [5; 5]]%Z) B)) |}.
Proof.
  destruct (inverse 2 (Spec.pooled_cov 2 (of_ints [[1; 2]; [2; 1]; [4; 5]]%Z)
                                        (of_ints [[0; 0]; [1; 3]; [2; 1]; [5; 5]]%Z)))
    as [B|] eqn:E.
  - exists B.
    apply (@TwoSampleT2Test_refines_spec F_cdf_2 2
             (of_ints [[1; 2]; [2; 1]; [4; 5]]%Z)
             (of_ints [[0; 0]; [1; 3]; [2; 1]; [5; 5]]%Z) B).
    + repeat constructor.
    + repeat constructor.
    + lia.
    + cbn. lia.
    + cbn. lia.
    + apply inverse_sound; [repeat constructor | reflexivity | exact E].
  - lazy in E. discriminate E.
Defined.

Lemma TwoSampleT2Test_same_sample_witness :
  exists r,
    TwoSampleT2Test F_cdf_2 two_a two_a = Ret r
    /\ astype this (fst (returned r)) = Arr0 0%Q
    /\ astype this (snd (returned r)) = Arr0 1%Q.
Proof.
  destruct (inverse 2 (Spec.sample_cov 2 (of_ints [[1; 2]; [2; 1]; [4; 5]]%Z)))
    as [B|] eqn:E.
  - destruct (@TwoSampleT2Test_same_sample F_cdf_2 2
                (of_ints [[1; 2]; [2; 1]; [4; 5]]%Z) B) as [H1 H2].
    + repeat constructor.
    + lia.
    + cbn. lia.
    + apply inverse_sound; [repeat constructor | reflexivity | exact E].
    + eexists. split; [exact H1|]. rewrite H2; [split; reflexivity | reflexivity].
  - lazy in E. discriminate E.
Defined.

(** X3: the test cannot be used on one feature: for every pair of
    one-column samples with at least two rows each it raises
    [LinAlgError], whatever the data, because [np.cov] hands numbers, not
    1 by 1 matrices, to [np.linalg.inv]. *)
Theorem TwoSampleT2Test_univariate (F_cdf : Z -> Z -> Qc -> Qc)
    (RX RY : list (list Qc)) :
  wf2 1 RX -> wf2 1 RY -> (2 <= length RX)%nat -> (2 <= length RY)%nat ->
  TwoSampleT2Test F_cdf (Arr2 1 RX) (Arr2 1 RY)
  = Raise (LinAlgError NotTwoDimensional).
Proof. intros _ _ HX HY. now apply one_feature. Qed.

Lemma TwoSampleT2Test_univariate_witness :
  TwoSampleT2Test F_cdf_2 one_b one_c = Raise (LinAlgError NotTwoDimensional).
Proof.
  apply TwoSampleT2Test_univariate.
  - repeat constructor.
  - repeat constructor.
  - cbn. lia.
  - cbn. lia.
Defined.



(** X5: both samples must be 2-d arrays: when one of them is a number or
    a vector, unpacking its shape raises [ValueError] before any
    arithmetic. *)
Theorem TwoSampleT2Test_needs_two_axes (F_cdf : Z -> Z -> Qc -> Qc)
    (X Y : ndarray Qc) :
  ndim X <> 2%nat \/ ndim Y <> 2%nat ->
  TwoSampleT2Test F_cdf X Y = Raise ValueError.
Proof.
  intros H. unfold TwoSampleT2Test, pooling.
  destruct X as [x | dx | cx RX]; try reflexivity.
  destruct Y as [y | dy | cy RY]; try reflexivity.
  cbn [ndim] in H. destruct H as [H | H]; contradiction.
Qed.

Lemma TwoSampleT2Test_needs_two_axes_witness :
  TwoSampleT2Test F_cdf_2 two_a (Arr1 [0; 1]) = Raise ValueError.
Proof.
  apply TwoSampleT2Test_needs_two_axes. right. discriminate.
Defined.


(** *** The text of a matrix determines the matrix *)


















(** *** Moving and rescaling the data *)











































Lemma map_combine_repeat_l (f : Qc -> Qc -> Qc) (a : Qc) (r : list Qc) :
  map (fun q => f (fst q) (snd q)) (combine (repeat a (length r)) r) = map (f a) r.
Proof.
  induction r as [|x r IH]; [reflexivity|].
  cbn [length repeat combine map fst snd]. now rewrite IH.
Qed.

Lemma map_combine_repeat_r (f : Qc -> Qc -> Qc) (b : Qc) (r : list Qc) :
  map (fun q => f (fst q) (snd q)) (combine r (repeat b (length r)))
  = map (fun x => f x b) r.
Proof.
  induction r as [|x r IH]; [reflexivity|].
  cbn [length repeat combine map fst snd]. now rewrite IH.
Qed.

Lemma wf2_map_map (f : Qc -> Qc) (c : nat) (M : list (list Qc)) :
  wf2 c M -> wf2 c (map (map f) M).
Proof.
  intros W. apply Forall_map. eapply Forall_impl; [|exact W].
  intros r Hr. now rewrite length_map.
Qed.

Lemma bc_len_1_l (c : nat) : bc_len 1 c = Some c.
Proof.
  unfold bc_len. destruct (Nat.eqb_spec 1 c) as [<- | _]; reflexivity.
Qed.

Lemma bc_len_1_r (c : nat) : bc_len c 1 = Some c.
Proof.
  unfold bc_len. destruct (Nat.eqb_spec c 1) as [-> | _]; reflexivity.
Qed.

Lemma length_stretch (A : Type) (k : nat) (l : list A) :
  length l = k \/ length l = 1%nat -> length (stretch k l) = k.
Proof.
  intros [H | H].
  - now rewrite stretch_id.
  - destruct l as [|x [|y l]]; try discriminate. cbn [stretch].
    apply repeat_length.
Qed.

Lemma rows_against_number (f : Qc -> Qc -> Qc) (a : Qc) (c : nat)
      (M : list (list Qc)) :
  wf2 c M ->
  map (fun p => map (fun q => f (fst q) (snd q))
                    (combine (stretch c (fst p)) (stretch c (snd p))))
      (combine (repeat [a] (length M)) M)
  = map (map (f a)) M.
Proof.
  induction 1 as [|r M Hr W IH]; [reflexivity|].
  cbn [length repeat combine map fst snd stretch]. rewrite IH. f_equal.
  rewrite (@stretch_id _ c r Hr), <- Hr. apply map_combine_repeat_l.
Qed.

Lemma number_against_rows (f : Qc -> Qc -> Qc) (b : Qc) (c : nat)
      (M : list (list Qc)) :
  wf2 c M ->
  map (fun p => map (fun q => f (fst q) (snd q))
                    (combine (stretch c (fst p)) (stretch c (snd p))))
      (combine M (repeat [b] (length M)))
  = map (map (fun x => f x b)) M.
Proof.
  induction 1 as [|r M Hr W IH]; [reflexivity|].
  cbn [length repeat combine map fst snd stretch]. rewrite IH. f_equal.
  rewrite (@stretch_id _ c r Hr), <- Hr. apply map_combine_repeat_r.
Qed.

(** A number against a matrix: the number meets every entry. *)
Lemma binop_scalar_mat (f : Qc -> Qc -> Qc) (a : Qc) (c : nat) (M : list (list Qc)) :
  wf2 c M -> length M = c -> c <> 1%nat ->
  binop f (Arr0 a) (Arr2 c M) = Ret (Arr2 c (map (map (f a)) M)).
Proof.
  intros W L Hc. unfold binop. cbn [view2 ndim Nat.max].
  rewrite L, bc_len_1_l. cbn [unview stretch].
  rewrite (@stretch_id _ c M L). do 2 f_equal.
  replace (repeat [a] c) with (repeat [a] (length M)) by now rewrite L.
  now apply rows_against_number.
Qed.

Lemma binop_mat_scalar (f : Qc -> Qc -> Qc) (b : Qc) (c : nat) (M : list (list Qc)) :
  wf2 c M -> length M = c -> c <> 1%nat ->
  binop f (Arr2 c M) (Arr0 b) = Ret (Arr2 c (map (map (fun x => f x b)) M)).
Proof.
  intros W L Hc. unfold binop. cbn [view2 ndim Nat.max].
  rewrite L, bc_len_1_r. cbn [unview stretch].
  rewrite (@stretch_id _ c M L). do 2 f_equal.
  replace (repeat [b] c) with (repeat [b] (length M)) by now rewrite L.
  now apply number_against_rows.
Qed.


Lemma bc_len_cases (n m c : nat) :
  bc_len n m = Some c ->
  (n = m /\ c = n) \/ (n = 1%nat /\ m <> 1%nat /\ c = m)
  \/ (m = 1%nat /\ n <> 1%nat /\ c = n).
Proof.
  unfold bc_len.
  destruct (Nat.eqb_spec n m) as [E | E]; [intros [= <-]; now left|].
  destruct (Nat.eqb_spec n 1) as [E1 | E1];
    [intros [= <-]; right; left; repeat split; congruence|].
  destruct (Nat.eqb_spec m 1) as [E2 | E2]; [|discriminate].
  intros [= <-]. right; right. now repeat split.
Qed.

(** Lines 6 to 11 on two samples whose widths broadcast to [c], not both
    of one column: the difference has [c] entries and the pooled
    covariance is [c] by [c]. *)
Lemma pooling_shape (cx cy c : nat) (RX RY : list (list Qc)) :
  (2 <= length RX)%nat -> (2 <= length RY)%nat ->
  bc_len cx cy = Some c -> c <> 1%nat ->
  exists (d : list Qc) (M : list (list Qc)),
    pooling (Arr2 cx RX) (Arr2 cy RY)
    = Ret (Z.of_nat (length RX), Z.of_nat (length RY), Z.of_nat cx,
           Arr1 d, Arr2 c M)
    /\ length d = c /\ wf2 c M /\ length M = c.
Proof.
  intros HX HY Hbc Hc.
  assert (Hd : pool_divisor (Z.of_nat (length RX)) (Z.of_nat (length RY)) <> 0%Z)
    by (unfold pool_divisor; lia).
  destruct (cov_mat_shape cx RX) as [W1 L1].
  destruct (cov_mat_shape cy RY) as [W2 L2].
  destruct (@bc_len_cases _ _ _ Hbc) as [(E & ->) | [(-> & N & ->) | (-> & N & ->)]].
  - subst cy. rewrite pooling_value by assumption.
    destruct (@S_pooled_shape cx RX RY) as [W L].
    destruct (squeeze_cases W L) as [(E & _) | (_ & ->)]; [contradiction|].
    eexists _, _. split; [reflexivity|]. repeat split; auto.
    rewrite length_vsub, !length_mean_vec. apply Nat.min_id.
  - unfold pooling. cbn [shape2 bind np_mean np_cov].
    rewrite !mean_axis0_value by (intros ->; cbn [length] in *; lia).
    cbn [bind]. rewrite binop_vec, !length_mean_vec, Hbc. cbn [bind].
    rewrite !cov_value by assumption. cbn [bind].
    destruct (squeeze_cases W1 L1) as [(_ & x & ->) | (E & _)]; [|contradiction].
    destruct (squeeze_cases W2 L2) as [(E & _) | (_ & ->)]; [contradiction|].
    cbn [squeeze scale astype].
    rewrite binop_scalar_mat by (auto using wf2_map_map; now rewrite length_map).
    cbn [bind]. rewrite div_int_mat by assumption. cbn [bind].
    eexists _, _. split; [reflexivity|]. repeat split.
    + rewrite length_map, length_combine, !length_stretch;
        rewrite ?length_mean_vec; auto using Nat.min_id.
    + auto using wf2_map_map.
    + now rewrite !length_map.
  - unfold pooling. cbn [shape2 bind np_mean np_cov].
    rewrite !mean_axis0_value by (intros ->; cbn [length] in *; lia).
    cbn [bind]. rewrite binop_vec, !length_mean_vec, Hbc. cbn [bind].
    rewrite !cov_value by assumption. cbn [bind].
    destruct (squeeze_cases W2 L2) as [(_ & y & ->) | (E & _)]; [|contradiction].
    destruct (squeeze_cases W1 L1) as [(E & _) | (_ & ->)]; [contradiction|].
    cbn [squeeze scale astype].
    rewrite binop_mat_scalar by (auto using wf2_map_map; now rewrite length_map).
    cbn [bind]. rewrite div_int_mat by assumption. cbn [bind].
    eexists _, _. split; [reflexivity|]. repeat split.
    + rewrite length_map, length_combine, !length_stretch;
        rewrite ?length_mean_vec; auto using Nat.min_id.
    + auto using wf2_map_map.
    + now rewrite !length_map.
Qed.

(** Lines 13 to 18 never fail on mismatched shapes once the difference
    and the pooled covariance fit each other. *)
Lemma tail_shapes_fit (F_cdf : Z -> Z -> Qc -> Qc) (X Y : ndarray Qc)
      (nx ny p : Z) (c : nat) (d : list Qc) (M : list (list Qc)) :
  pooling X Y = Ret (nx, ny, p, Arr1 d, Arr2 c M) ->
  length d = c -> wf2 c M -> length M = c ->
  TwoSampleT2Test F_cdf X Y <> Raise ValueError.
Proof.
  intros HP Ld W L. unfold TwoSampleT2Test. rewrite HP. cbn [bind].
  unfold int_div. destruct (t2_divisor nx ny =? 0)%Z; [discriminate|].
  cbn [bind linalg_inv]. rewrite L, Nat.eqb_refl.
  destruct (inverse c M) as [B|] eqn:EB; [|discriminate].
  apply inverse_sound in EB; auto. destruct EB as (LB & WB & _ & _).
  cbn [bind transpose matmul]. rewrite Ld, LB, Nat.eqb_refl. cbn [bind matmul].
  rewrite (@length_vecmat c B WB d), Ld, Nat.eqb_refl.
  cbn [bind scale astype div_int mapM_array]. unfold fdiv.
  destruct (F_divisor nx ny p =? 0)%Z; [discriminate|].
  cbn [bind mapM_array]. unfold cdf.
  destruct ((0 <? p) && (0 <? nx + ny - p - 1))%Z%bool; discriminate.
Qed.

(** X11: for two samples of at least two rows each, the function fails
    with [ValueError] exactly when the numbers of columns differ and
    neither is one; a sample of a single column is broadcast against
    the other. *)
Theorem TwoSampleT2Test_value_error (F_cdf : Z -> Z -> Qc -> Qc)
    (cx cy : nat) (RX RY : list (list Qc)) :
  (2 <= length RX)%nat -> (2 <= length RY)%nat ->
  (TwoSampleT2Test F_cdf (Arr2 cx RX) (Arr2 cy RY) = Raise ValueError
   <-> cx <> cy /\ cx <> 1%nat /\ cy <> 1%nat).
Proof.
  intros HX HY. split.
  - intros H. destruct (bc_len cx cy) as [c|] eqn:Hbc.
    + exfalso. destruct (Nat.eq_dec c 1) as [-> | Hc].
      * destruct (@bc_len_cases _ _ _ Hbc) as [(E & E') | [(E & N & E') | (E & N & E')]];
          try congruence.
        subst cy. rewrite one_feature in H by auto. discriminate.
      * destruct (@pooling_shape _ _ _ _ _ HX HY Hbc Hc) as (d & M & HP & Ld & W & L).
        now apply (@tail_shapes_fit F_cdf _ _ _ _ _ _ _ _ HP Ld W L).
    + unfold bc_len in Hbc.
      destruct (Nat.eqb_spec cx cy); [discriminate|].
      destruct (Nat.eqb_spec cx 1); [discriminate|].
      destruct (Nat.eqb_spec cy 1); [discriminate|]. auto.
  - intros (Hc & H1 & H2). unfold TwoSampleT2Test, pooling.
    cbn [shape2 bind np_mean].
    rewrite !mean_axis0_value by (intros ->; cbn [length] in *; lia).
    cbn [bind].
    rewrite binop_vec, !length_mean_vec, bc_len_mismatch by assumption.
    reflexivity.
Qed.

Lemma TwoSampleT2Test_value_error_witness :
  (TwoSampleT2Test F_cdf_2 two_a three_a = Raise ValueError
   <-> 2%nat <> 3%nat /\ 2%nat <> 1%nat /\ 3%nat <> 1%nat)
  /\ (TwoSampleT2Test F_cdf_2 two_a one_c = Raise ValueError
      <-> 2%nat <> 1%nat /\ 2%nat <> 1%nat /\ 1%nat <> 1%nat).
Proof.
  split; apply TwoSampleT2Test_value_error; cbn [length of_ints map]; lia.
Defined.







End Further.
